(** * Verification of [scripts/analyze_profile.py]

    A shallow embedding of the resolution-and-aggregation core of the
    profile analyzer: [build_address_map], [find_main_thread] and
    [analyze_samples], then of the report [print_analysis] and of [main],
    followed by the properties of the design document and further
    properties of the code.

    Python integers are unbounded, so they are [Z].  A [dict] is a [gmap],
    a [set] a [gset].  Exceptions are an explicit result type, and the
    functions that print or that receive shared objects run in a small
    state-and-exception monad whose state holds what they could change. *)


From Stdlib Require Import ZArith String Ascii HexString DecimalString.
From stdpp Require Import gmap strings list fin_maps sorting.

Local Open Scope string_scope.
Local Open Scope Z_scope.

(** ** Python values and exceptions *)

Inductive exn :=
| IndexError
| ValueError
| SystemExit (code : Z).

Inductive res (A : Type) :=
| Ok (a : A)
| Raise (e : exn).
Arguments Ok {A} a.
Arguments Raise {A} e.

Definition res_bind {A B : Type} (f : A → res B) (r : res A) : res B :=
  match r with
  | Ok a => f a
  | Raise e => Raise e
  end.

#[global] Instance res_ret : MRet res := λ A a, Ok a.
#[global] Instance res_mbind : MBind res := λ A B f r, res_bind f r.

(** A computation over a state [S]: it returns a value or raises, and in
    both cases leaves a state behind. *)
Definition M (S A : Type) : Type := S → res A * S.

Definition M_bind {S A B : Type} (f : A → M S B) (c : M S A) : M S B :=
  λ s, match c s with
       | (Ok a, s') => f a s'
       | (Raise e, s') => (Raise e, s')
       end.

#[global] Instance M_ret {S} : MRet (M S) := λ A a s, (Ok a, s).
#[global] Instance M_mbind {S} : MBind (M S) := λ A B f c, M_bind f c.

Definition raise {S A : Type} (e : exn) : M S A := λ s, (Raise e, s).

Definition lift {S A : Type} (r : res A) : M S A := λ s, (r, s).

(** [l[i]] on a Python list: valid indices are [-len(l) <= i < len(l)],
    a negative index counts from the end, anything else is an
    [IndexError] (here [None]). *)
Definition py_index {A : Type} (l : list A) (i : Z) : option A :=
  if 0 <=? i then l !! Z.to_nat i
  else if - Z.of_nat (length l) <=? i then l !! Z.to_nat (Z.of_nat (length l) + i)
  else None.

Definition index_or_raise {A : Type} (l : list A) (i : Z) : res A :=
  match py_index l i with
  | Some x => Ok x
  | None => Raise IndexError
  end.

(** [pat in s] on Python strings: [pat] occurs in [s] as a substring. *)
Fixpoint str_contains (pat s : string) : bool :=
  String.prefix pat s ||
  match s with
  | EmptyString => false
  | String _ s' => str_contains pat s'
  end.

(** [format(n, 'x')]: lower-case hexadecimal digits, with a leading minus
    sign for a negative number. *)
Definition format_x (n : Z) : string :=
  match n with
  | Z0 => "0"
  | Zpos p => HexString.Raw.of_pos p ""
  | Zneg p => "-" ++ HexString.Raw.of_pos p ""
  end.

(** ** The symbol document *)

Record sym_entry := {
  sym_rva : Z;
  sym_size : Z;
  sym_symbol : Z
}.

Record lib := {
  debug_name : option string;
  symbol_table : list sym_entry
}.

Record symbols := {
  data : list lib;
  string_table : list string
}.

(** ** [build_address_map] *)

Definition target : string := "demo-interactive".

(** The first loop: the first library whose [debug_name] (the empty
    string when the key is absent) contains the target. *)
Fixpoint find_demo_lib (libs : list lib) : option lib :=
  match libs with
  | [] => None
  | lib :: rest =>
      if str_contains target (default "" (debug_name lib)) then Some lib
      else find_demo_lib rest
  end.

(** [for offset in range(size): addr_to_sym[rva + offset] = symbol_name] *)
Definition map_range (rva size : Z) (symbol_name : string)
    (addr_to_sym : gmap Z string) : gmap Z string :=
  foldl (λ d offset, <[rva + offset := symbol_name]> d) addr_to_sym (seqZ 0 size).

(** The body of the loop over the symbol table. *)
Definition map_sym_entry (string_table : list string) (addr_to_sym : gmap Z string)
    (sym_entry : sym_entry) : res (gmap Z string) :=
  let rva := sym_rva sym_entry in
  let size := sym_size sym_entry in
  let symbol_idx := sym_symbol sym_entry in
  symbol_name ← index_or_raise string_table symbol_idx;
  mret (map_range rva size symbol_name addr_to_sym).

Fixpoint map_symbol_table (string_table : list string) (entries : list sym_entry)
    (addr_to_sym : gmap Z string) : res (gmap Z string) :=
  match entries with
  | [] => mret addr_to_sym
  | sym_entry :: rest =>
      addr_to_sym ← map_sym_entry string_table addr_to_sym sym_entry;
      map_symbol_table string_table rest addr_to_sym
  end.

(** [print]: the state is the list of lines written to standard output. *)
Definition print (line : string) : M (list string) unit :=
  λ out, (Ok tt, (out ++ [line])%list).

Definition sys_exit {A : Type} (code : Z) : M (list string) A :=
  raise (SystemExit code).

Definition missing_lib_message : string :=
  "ERROR: Could not find demo-interactive library in symbols".

Definition build_address_map (symbols : symbols) : M (list string) (gmap Z string) :=
  match find_demo_lib (data symbols) with
  | None =>
      _ ← print missing_lib_message;
      sys_exit 1
  | Some demo_lib =>
      lift (map_symbol_table (string_table symbols) (symbol_table demo_lib) ∅)
  end.

(** The lookup of [analyze_samples],
    [addr_to_sym.get(addr, f'0x{addr:x}')]. *)
Definition fallback_label (addr : Z) : string := "0x" ++ format_x addr.

Definition resolve (addr_to_sym : gmap Z string) (addr : Z) : string :=
  default (fallback_label addr) (addr_to_sym !! addr).

(** ** The capture *)

Record thread := {
  name : string;
  processName : option string;
  isMainThread : option bool;
  samples_length : Z;
  samples_stack : list (option Z);
  stackTable_frame : list Z;
  stackTable_prefix : list (option Z);
  frameTable_address : list Z
}.

Record profile := {
  threads : list thread
}.

(** ** [find_main_thread] *)

Definition truthy (b : option bool) : bool := default false b.

Definition names_target_or_main (thread : thread) : bool :=
  str_contains target (default "" (processName thread)) || truthy (isMainThread thread).

Fixpoint first_main_thread (ts : list thread) : option thread :=
  match ts with
  | [] => None
  | thread :: rest =>
      if names_target_or_main thread then
        if 100 <? samples_length thread then Some thread
        else first_main_thread rest
      else first_main_thread rest
  end.

(** [max(iterable, key=...)]: the running best is replaced only by a
    strictly greater key, so the first maximal element is returned; an
    empty iterable is a [ValueError]. *)
Fixpoint max_from {A : Type} (key : A → Z) (best : A) (l : list A) : A :=
  match l with
  | [] => best
  | x :: rest => if key best <? key x then max_from key x rest else max_from key best rest
  end.

Definition py_max {A : Type} (key : A → Z) (l : list A) : res A :=
  match l with
  | [] => Raise ValueError
  | x :: rest => Ok (max_from key x rest)
  end.

Definition find_main_thread (profile : profile) : res thread :=
  match first_main_thread (threads profile) with
  | Some thread => Ok thread
  | None => py_max samples_length (threads profile)
  end.

(** ** [analyze_samples] *)

(** The two arguments are references to objects the caller keeps using,
    so they live in the state, next to standard output; the function's
    own [func_samples], [visited] and [current] are locals. *)
Record heap := {
  h_thread : thread;
  h_addr_to_sym : gmap Z string;
  h_stdout : list string
}.

Definition read {A : Type} (f : heap → A) : M heap A := λ h, (Ok (f h), h).

Definition read_index {A : Type} (f : heap → list A) (i : Z) : M heap A :=
  λ h, (index_or_raise (f h) i, h).

(** [func_samples[func_name] += 1] on a [defaultdict(int)]. *)
Definition bump (func_name : string) (func_samples : gmap string Z) : gmap string Z :=
  <[func_name := default 0 (func_samples !! func_name) + 1]> func_samples.

(** [for depth in range(50)], with [remaining] iterations still to run. *)
Fixpoint walk (remaining : nat) (current : option Z) (visited : gset Z)
    (func_samples : gmap string Z) : M heap (gmap string Z) :=
  match remaining with
  | O => mret func_samples
  | S remaining =>
      match current with
      | None => mret func_samples
      | Some current =>
          if current <? 0 then mret func_samples
          else if decide (current ∈ visited) then mret func_samples
          else
            let visited := {[current]} ∪ visited in
            frame_idx ← read_index (λ h, stackTable_frame (h_thread h)) current;
            addr ← read_index (λ h, frameTable_address (h_thread h)) frame_idx;
            func_name ← read (λ h, resolve (h_addr_to_sym h) addr);
            let func_samples := bump func_name func_samples in
            current ← read_index (λ h, stackTable_prefix (h_thread h)) current;
            walk remaining current visited func_samples
      end
  end.

Definition depth_cap : nat := 50.

(** [for stack_idx in stack_indices] *)
Fixpoint walk_samples (stack_indices : list (option Z))
    (func_samples : gmap string Z) : M heap (gmap string Z) :=
  match stack_indices with
  | [] => mret func_samples
  | stack_idx :: rest =>
      match stack_idx with
      | None => walk_samples rest func_samples
      | Some stack_idx =>
          if stack_idx <? 0 then walk_samples rest func_samples
          else
            func_samples ← walk depth_cap (Some stack_idx) ∅ func_samples;
            walk_samples rest func_samples
      end
  end.

Definition analyze_samples : M heap (gmap string Z * Z) :=
  let func_samples := ∅ in
  stack_indices ← read (λ h, samples_stack (h_thread h));
  func_samples ← walk_samples stack_indices func_samples;
  mret (func_samples, Z.of_nat (length stack_indices)).

(** The call [analyze_samples(thread, addr_to_sym)]. *)
Definition call_analyze_samples (thread : thread) (addr_to_sym : gmap Z string)
    (out : list string) : res (gmap string Z * Z) * heap :=
  analyze_samples {| h_thread := thread; h_addr_to_sym := addr_to_sym; h_stdout := out |}.

(** ** Vocabulary of the properties *)

Definition covers (e : sym_entry) (a : Z) : Prop :=
  sym_rva e ≤ a < sym_rva e + sym_size e.

#[global] Instance covers_dec e a : Decision (covers e a).
Proof. unfold covers. apply _. Defined.

Definition is_substring (pat s : string) : Prop :=
  ∃ pre post, s = pre ++ pat ++ post.

Definition names_target (lib : lib) : Prop :=
  is_substring target (default "" (debug_name lib)).

(** The symbol entries of the library the resolver is built from. *)
Definition entries (symbols : symbols) : list sym_entry :=
  from_option symbol_table [] (find_demo_lib (data symbols)).

Definition entry_name (symbols : symbols) (e : sym_entry) : option string :=
  py_index (string_table symbols) (sym_symbol e).

(** The combined condition of the first loop of [find_main_thread]. *)
Definition qualifies (t : thread) : Prop :=
  (is_substring target (default "" (processName t)) ∨ isMainThread t = Some true) ∧
  100 < samples_length t.

Definition qualifiesb (t : thread) : bool :=
  names_target_or_main t && (100 <? samples_length t).

(** The name the loop body attributes to stack id [c], when both table
    lookups succeed. *)
Definition frame_name (th : thread) (m : gmap Z string) (c : Z) : option string :=
  frame_idx ← py_index (stackTable_frame th) c;
  addr ← py_index (frameTable_address th) frame_idx;
  Some (resolve m addr).

Definition mk_heap (th : thread) (m : gmap Z string) (out : list string) : heap :=
  {| h_thread := th; h_addr_to_sym := m; h_stdout := out |}.

(** An optional stack id is absent or below the size of the stack table. *)
Definition closed_id (bound : Z) (o : option Z) : Prop :=
  match o with
  | None => True
  | Some c => c < bound
  end.

(** Every index stored in the thread's tables points inside the table it
    indexes: nothing is said about cycles or chain lengths. *)
Definition tables_closed (th : thread) : Prop :=
  let n := Z.of_nat (length (stackTable_frame th)) in
  let k := Z.of_nat (length (frameTable_address th)) in
  Z.of_nat (length (stackTable_prefix th)) = n ∧
  Forall (λ f, - k ≤ f < k) (stackTable_frame th) ∧
  Forall (closed_id n) (stackTable_prefix th) ∧
  Forall (closed_id n) (samples_stack th).

(** The counts after attributing one frame to each name of a list. *)
Definition count_all (names : list string) (func_samples : gmap string Z) : gmap string Z :=
  foldl (λ fs nm, bump nm fs) func_samples names.

(** The number of increments a table of counts records. *)
Definition total_count (func_samples : gmap string Z) : Z :=
  map_fold (λ _ c acc, c + acc) 0 func_samples.

Definition counts_positive (func_samples : gmap string Z) : Prop :=
  map_Forall (λ _ c, 1 ≤ c) func_samples.

(** [chain th cur cs last]: starting at [cur] and following the prefix
    column, the walk meets the non-negative stack ids [cs] in that order
    and then stands at [last]. *)
Fixpoint chain (th : thread) (cur : option Z) (cs : list Z) (last : option Z) : Prop :=
  match cs with
  | [] => cur = last
  | c :: rest =>
      cur = Some c ∧ 0 ≤ c ∧
      match py_index (stackTable_prefix th) c with
      | Some nxt => chain th nxt rest last
      | None => False
      end
  end.

(** How a chain can end without an error: at a root, at a negative id, or
    at an id the walk has already visited. *)
Definition chain_ends (cs : list Z) (last : option Z) : Prop :=
  match last with
  | None => True
  | Some b => b < 0 ∨ b ∈ cs
  end.

(** The second half of the coverage claim, read literally: the address one
    past the end of an entry never resolves to the entry's name unless a
    different entry covers it. *)
Definition end_never_named : Prop :=
  ∀ symbols out m out' (i : nat) e nm,
    build_address_map symbols out = (Ok m, out') →
    entries symbols !! i = Some e →
    entry_name symbols e = Some nm →
    (∀ (j : nat) e', j ≠ i → entries symbols !! j = Some e' →
       ¬ covers e' (sym_rva e + sym_size e)) →
    resolve m (sym_rva e + sym_size e) ≠ nm.

(** The fallback claim, read literally: whatever the address, the name
    returned is not the empty string. *)
Definition resolve_never_empty : Prop :=
  ∀ symbols out m out' a,
    build_address_map symbols out = (Ok m, out') → resolve m a ≠ "".

(** The fatal-precondition claim, read literally: building is fatal when
    no library names the target and also when the library found has an
    empty symbol table. *)
Definition empty_table_is_fatal : Prop :=
  ∀ symbols out,
    (find_demo_lib (data symbols) = None ∨
     ∃ demo_lib, find_demo_lib (data symbols) = Some demo_lib ∧
                 symbol_table demo_lib = []) →
    ∃ e out', build_address_map symbols out = (Raise e, out').

(** ** Example documents *)

Definition demo_symbols : symbols :=
  {| data := [ {| debug_name := Some "lib-demo-interactive";
                  symbol_table := [ {| sym_rva := 100; sym_size := 10; sym_symbol := 0 |} ] |} ];
     string_table := ["foo"] |}.

Definition demo_thread : thread :=
  {| name := "main"; processName := Some "demo"; isMainThread := Some true;
     samples_length := 150;
     samples_stack := replicate 150 (Some 0);
     stackTable_frame := [0];
     stackTable_prefix := [None];
     frameTable_address := [105] |}.

(** One entry [100, 110) whose name reads like a fallback label. *)
Definition hex_named_symbols : symbols :=
  {| data := [ {| debug_name := Some "demo-interactive";
                  symbol_table := [ {| sym_rva := 100; sym_size := 10; sym_symbol := 0 |} ] |} ];
     string_table := ["0x6e"] |}.

(** One entry [100, 110) whose name is the empty string. *)
Definition unnamed_symbols : symbols :=
  {| data := [ {| debug_name := Some "demo-interactive";
                  symbol_table := [ {| sym_rva := 100; sym_size := 10; sym_symbol := 0 |} ] |} ];
     string_table := [""] |}.

(** Two overlapping entries, [100, 110) then [105, 115). *)
Definition overlapping_symbols : symbols :=
  {| data := [ {| debug_name := None; symbol_table := [] |};
               {| debug_name := Some "lib-demo-interactive.so";
                  symbol_table := [ {| sym_rva := 100; sym_size := 10; sym_symbol := 0 |};
                                    {| sym_rva := 105; sym_size := 10; sym_symbol := 1 |} ] |} ];
     string_table := ["foo"; "bar"] |}.

Definition overlapping_map : gmap Z string :=
  map_range 105 10 "bar" (map_range 100 10 "foo" ∅).

(** The target library is present but has no symbols. *)
Definition empty_table_symbols : symbols :=
  {| data := [ {| debug_name := Some "demo-interactive"; symbol_table := [] |} ];
     string_table := ["foo"] |}.

Definition idle_main : thread :=
  {| name := "idle"; processName := Some "demo-interactive"; isMainThread := Some true;
     samples_length := 100; samples_stack := []; stackTable_frame := [];
     stackTable_prefix := []; frameTable_address := [] |}.

Definition busy_main : thread :=
  {| name := "main"; processName := None; isMainThread := Some true;
     samples_length := 101; samples_stack := []; stackTable_frame := [];
     stackTable_prefix := []; frameTable_address := [] |}.

Definition worker (samples : Z) : thread :=
  {| name := "worker"; processName := Some "rayon"; isMainThread := None;
     samples_length := samples; samples_stack := []; stackTable_frame := [];
     stackTable_prefix := []; frameTable_address := [] |}.

(** Stack ids 0 and 1 are each other's parent; stack id 2 is a root.  The
    samples are a root, an absent stack, the cycle, a negative stack id
    and the root again. *)
Definition cyclic_thread : thread :=
  {| name := "main"; processName := Some "demo-interactive"; isMainThread := Some true;
     samples_length := 5;
     samples_stack := [Some 2; None; Some 0; Some (-1); Some 2];
     stackTable_frame := [0; 1; 0];
     stackTable_prefix := [Some 1; Some 0; None];
     frameTable_address := [105; 200] |}.

(** A single chain of 60 distinct stack ids, 0 → 1 → ... → 59. *)
Definition deep_thread : thread :=
  {| name := "deep"; processName := None; isMainThread := None;
     samples_length := 1;
     samples_stack := [Some 0];
     stackTable_frame := replicate 60 0;
     stackTable_prefix := (Some <$> seqZ 1 59) ++ [None];
     frameTable_address := [105] |}.

(** ** Vocabulary of the further properties *)

(** A symbol index the string table accepts, counting from the end when
    negative. *)
Definition valid_symbol (string_table : list string) (e : sym_entry) : Prop :=
  - Z.of_nat (length string_table) ≤ sym_symbol e < Z.of_nat (length string_table).

(** No address lies in the ranges of two entries. *)
Definition disjoint_entries (es : list sym_entry) : Prop :=
  ∀ (i j : nat) e e' a,
    i ≠ j → es !! i = Some e → es !! j = Some e' → covers e a → ¬ covers e' a.

(** The number of addresses the entries' ranges hold, one range after the
    other. *)
Definition range_total (es : list sym_entry) : nat :=
  sum_list (Z.to_nat ∘ sym_size <$> es).

(** A sample the outer loop passes over: no stack, or a negative one. *)
Definition skipped (s : option Z) : Prop :=
  match s with
  | None => True
  | Some i => i < 0
  end.

(** How often a name occurs in a list of names. *)
Definition occurrences (nm : string) (names : list string) : Z :=
  Z.of_nat (length (filter (λ x, x = nm) names)).

(** Reading a fallback label back: the digits after ["0x"], negated when
    a minus sign precedes them. *)
Definition label_address (label : string) : Z :=
  match label with
  | String _ (String _ (String c digits)) =>
      if Ascii.ascii_dec c "-" then - Z.of_N (HexString.Raw.to_N digits 0)
      else Z.of_N (HexString.Raw.to_N (String c digits) 0)
  | _ => 0
  end.

(** The thread with its samples put in another order, tables untouched. *)
Definition with_samples (th : thread) (stack_indices : list (option Z)) : thread :=
  {| name := name th;
     processName := processName th;
     isMainThread := isMainThread th;
     samples_length := samples_length th;
     samples_stack := stack_indices;
     stackTable_frame := stackTable_frame th;
     stackTable_prefix := stackTable_prefix th;
     frameTable_address := frameTable_address th |}.

(** A stack id on which one of the three table lookups of the loop body
    is out of range. *)
Definition broken_id (th : thread) (c : Z) : Prop :=
  Z.of_nat (length (stackTable_frame th)) ≤ c ∨
  (∃ f, py_index (stackTable_frame th) c = Some f ∧
        ¬ (- Z.of_nat (length (frameTable_address th)) ≤ f
           < Z.of_nat (length (frameTable_address th)))) ∨
  Z.of_nat (length (stackTable_prefix th)) ≤ c.

(** ** Further example documents *)

(** The second entry names string 5 of a table of two. *)
Definition bad_index_symbols : symbols :=
  {| data := [ {| debug_name := Some "demo-interactive";
                  symbol_table := [ {| sym_rva := 100; sym_size := 10; sym_symbol := -1 |};
                                    {| sym_rva := 200; sym_size := 0; sym_symbol := 5 |} ] |} ];
     string_table := ["foo"; "bar"] |}.

(** One sample whose chain 0 → 1 → 2 meets [foo], [bar] and [foo] again. *)
Definition recursive_thread : thread :=
  {| name := "main"; processName := None; isMainThread := Some true;
     samples_length := 1;
     samples_stack := [Some 0];
     stackTable_frame := [0; 1; 0];
     stackTable_prefix := [Some 1; Some 2; None];
     frameTable_address := [102; 107] |}.

(** The second sample names stack id 7 of a table of three. *)
Definition truncated_thread : thread :=
  {| name := "main"; processName := None; isMainThread := Some true;
     samples_length := 3;
     samples_stack := [Some 2; Some 7; Some 2];
     stackTable_frame := [0; 1; 0];
     stackTable_prefix := [Some 1; Some 2; None];
     frameTable_address := [102; 107] |}.

(** Samples without a stack, over empty tables. *)
Definition idle_thread : thread :=
  {| name := "idle"; processName := None; isMainThread := None;
     samples_length := 3;
     samples_stack := [None; Some (-1); None];
     stackTable_frame := [];
     stackTable_prefix := [];
     frameTable_address := [] |}.

(** ** Python output, floats and dictionaries for [print_analysis] *)

(** The exceptions [print_analysis] and [main] can meet on top of those of
    the core; [OtherError] stands for what loading a file can raise. *)
Inductive py_error :=
| Core (e : exn)
| ZeroDivisionError
| OverflowError
| OtherError (name : string).

Inductive outcome (A : Type) :=
| Returned (a : A)
| Raised (e : py_error).
Arguments Returned {A} a.
Arguments Raised {A} e.

(** A computation that writes to standard output, kept as the text
    written so far, and returns or raises. *)
Definition Py (A : Type) : Type := string → outcome A * string.

Definition Py_bind {A B : Type} (f : A → Py B) (c : Py A) : Py B :=
  λ out, match c out with
         | (Returned a, out') => f a out'
         | (Raised e, out') => (Raised e, out')
         end.

#[global] Instance Py_ret : MRet Py := λ A a out, (Returned a, out).
#[global] Instance Py_mbind : MBind Py := λ A B f c, Py_bind f c.

Definition py_raise {A : Type} (e : py_error) : Py A := λ out, (Raised e, out).

Definition newline : string := String "010"%char "".

(** [print(text, end=end)] *)
Definition print_end (text end_ : string) : Py unit :=
  λ out, (Returned tt, out ++ text ++ end_).

(** [print(text)] *)
Definition println (text : string) : Py unit := print_end text newline.

(** Floating point is not modelled: a float is a value of an unknown type,
    known only through the operations [print_analysis] applies to it. *)
Record float_ops := {
  float : Type;
  (** [count / total * 100] for a divisor other than 0; [None] when the
      quotient is too large for a float ([OverflowError]). *)
  percent : Z → Z → option float;
  (** [f'{x:5.1f}'] and [f'{x:.1f}'] *)
  format_5_1f : float → string;
  format_1f : float → string;
  (** [-x <= -y], the order [sort(key=lambda x: -x[1])] puts the floats in *)
  neg_le : float → float → bool
}.

(** [count / total_samples * 100] *)
Definition percentage (fl : float_ops) (count total_samples : Z) : Py (float fl) :=
  if total_samples =? 0 then py_raise ZeroDivisionError
  else match percent fl count total_samples with
       | Some pct => mret pct
       | None => py_raise OverflowError
       end.

(** The value of [pct] in the first loop: a float, or the integer 0. *)
Inductive pct_value (fl : float_ops) :=
| IntZero
| Float (x : float fl).
Arguments IntZero {fl}.
Arguments Float {fl} x.

Definition format_pct (fl : float_ops) (pct : pct_value fl) : string :=
  match pct with
  | IntZero => "  0.0"
  | Float x => format_5_1f fl x
  end.

(** [str(n)] for an integer *)
Definition str_int (n : Z) : string := NilZero.string_of_int (Z.to_int n).

(** [s * n] *)
Fixpoint str_repeat (s : string) (n : nat) : string :=
  match n with
  | O => ""
  | S n => s ++ str_repeat s n
  end.

(** [f'{n:6d}']: right-aligned in a field of at least [width] characters. *)
Definition rjust (width : nat) (s : string) : string :=
  str_repeat " " (width - String.length s) ++ s.

(** [f'{s:20s}']: left-aligned in a field of at least [width] characters. *)
Definition ljust (width : nat) (s : string) : string :=
  s ++ str_repeat " " (width - String.length s).

(** A dictionary with its insertion order, as the list of its items;
    [dict_get] is [d.get(key, default)]. *)
Fixpoint dict_get (items : list (string * Z)) (key : string) (dflt : Z) : Z :=
  match items with
  | [] => dflt
  | (k, v) :: rest => if String.eqb k key then v else dict_get rest key dflt
  end.

(** [sorted]: a stable sort, here by insertion from the right, each
    element going before the first one it is less than or equal to. *)
Fixpoint insert_sorted {A : Type} (le : A → A → bool) (x : A) (l : list A) : list A :=
  match l with
  | [] => [x]
  | y :: rest => if le x y then x :: y :: rest else y :: insert_sorted le x rest
  end.

Definition py_sorted {A : Type} (le : A → A → bool) (l : list A) : list A :=
  foldr (insert_sorted le) [] l.

(** ** [print_analysis] *)

Definition key_functions : list (string * string) :=
  [
    ("fire_sim_core::simulation::FireSimulation::update",
     "UPDATE");
    ("fire_sim_core::grid::simulation_grid::SimulationGrid::mark_active_cells",
     "MARK_ACTIVE");
    ("fire_sim_core::grid::simulation_grid::SimulationGrid::update_diffusion",
     "DIFFUSION");
    ("fire_sim_core::core_types::spatial::SpatialIndex::query_radius",
     "QUERY_RADIUS");
    ("fire_sim_core::physics::element_heat_transfer::calculate_total_heat_transfer",
     "HEAT_XFER");
    ("core::iter::range::<impl core::iter::traits::iterator::Iterator for core::ops::range::Range<A>>::next",
     "RANGE_NEXT");
    ("<core::ops::range::Range<T> as core::iter::range::RangeIteratorImpl>::spec_next",
     "SPEC_NEXT");
    ("hashbrown::raw::RawTableInner::find_or_find_insert_slot_inner",
     "HASHMAP_FIND");
    ("rayon::iter::extend::<impl rayon::iter::ParallelExtend<T> for alloc::vec::Vec<T>>::par_extend",
     "PAR_EXTEND");
    ("<core::slice::iter::Iter<T> as core::iter::traits::iterator::Iterator>::next",
     "SLICE_ITER");
    ("alloc::vec::Vec<T,A>::push",
     "VEC_PUSH")
  ].

Definition keywords : list string :=
  ["fire_sim_core"; "hashbrown"; "rayon"; "core::iter"; "alloc::vec"; "core::slice"].

Definition rule : string := str_repeat "=" 80.

(** The loop over [key_functions]. *)
Fixpoint key_loop (fl : float_ops) (func_samples : list (string * Z)) (total_samples : Z)
    (key_functions : list (string * string)) : Py unit :=
  match key_functions with
  | [] => mret tt
  | (func_name, label) :: rest =>
      let count := dict_get func_samples func_name 0 in
      pct ← (if 0 <? total_samples
             then x ← percentage fl count total_samples; mret (Float x)
             else mret IntZero);
      (if 0 <? count
       then println (format_pct fl pct ++ "%  " ++ rjust 6 (str_int count) ++ "  " ++
                     ljust 20 label ++ " " ++ func_name)
       else mret tt);;
      key_loop fl func_samples total_samples rest
  end.

(** [sorted(func_samples.items(), key=lambda x: -x[1])] *)
Definition sorted_funcs (func_samples : list (string * Z)) : list (string * Z) :=
  py_sorted (λ x y, - x.2 <=? - y.2) func_samples.

(** [any(kw in func_name for kw in keywords)] *)
Definition has_keyword (func_name : string) : bool :=
  existsb (λ kw, str_contains kw func_name) keywords.

(** The loop over [sorted_funcs], with its counter of the rows shown. *)
Fixpoint hotspot_loop (fl : float_ops) (total_samples : Z)
    (sorted_funcs : list (string * Z)) (count_shown : Z) : Py unit :=
  match sorted_funcs with
  | [] => mret tt
  | (func_name, count) :: rest =>
      if 40 <=? count_shown then mret tt
      else if has_keyword func_name then
        pct ← percentage fl count total_samples;
        println (format_5_1f fl pct ++ "%  " ++ rjust 6 (str_int count) ++ "  " ++ func_name);;
        hotspot_loop fl total_samples rest (count_shown + 1)
      else hotspot_loop fl total_samples rest count_shown
  end.

(** The loop over [enumerate(bottlenecks[:3])]. *)
Fixpoint bottleneck_loop (fl : float_ops) (i : Z) (bottlenecks : list (string * float fl))
    : Py unit :=
  match bottlenecks with
  | [] => mret tt
  | (name, pct) :: rest =>
      (if 0 <? i then print_end ", " "" else mret tt);;
      print_end (name ++ " (" ++ format_1f fl pct ++ "%)") "";;
      bottleneck_loop fl (i + 1) rest
  end.

Definition print_analysis (fl : float_ops) (func_samples : list (string * Z))
    (total_samples : Z) : Py unit :=
  println ("Total samples: " ++ str_int total_samples ++ newline);;
  println rule;;
  println "KEY FIRE SIMULATION FUNCTIONS";;
  println rule;;
  key_loop fl func_samples total_samples key_functions;;
  println (newline ++ rule);;
  println "TOP 40 HOTSPOTS (fire_sim_core, hashbrown, rayon, core::iter)";;
  println rule;;
  hotspot_loop fl total_samples (sorted_funcs func_samples) 0;;
  println (newline ++ rule);;
  println "PERFORMANCE SUMMARY";;
  println rule;;
  update_pct ← percentage fl
    (dict_get func_samples "fire_sim_core::simulation::FireSimulation::update" 0)
    total_samples;
  mark_pct ← percentage fl
    (dict_get func_samples
       "fire_sim_core::grid::simulation_grid::SimulationGrid::mark_active_cells" 0)
    total_samples;
  diff_pct ← percentage fl
    (dict_get func_samples
       "fire_sim_core::grid::simulation_grid::SimulationGrid::update_diffusion" 0)
    total_samples;
  query_pct ← percentage fl
    (dict_get func_samples "fire_sim_core::core_types::spatial::SpatialIndex::query_radius" 0)
    total_samples;
  par_extend_pct ← percentage fl
    (dict_get func_samples
       "rayon::iter::extend::<impl rayon::iter::ParallelExtend<T> for alloc::vec::Vec<T>>::par_extend" 0)
    total_samples;
  println ("Update:          " ++ format_5_1f fl update_pct ++ "%  (Main simulation loop)");;
  println ("Query Radius:    " ++ format_5_1f fl query_pct ++ "%  (Spatial neighbor searches)");;
  println ("Diffusion:       " ++ format_5_1f fl diff_pct ++ "%  (Grid atmospheric updates)");;
  println ("Mark Active:     " ++ format_5_1f fl mark_pct ++ "%  (Grid cell activation)");;
  println ("Par Extend:      " ++ format_5_1f fl par_extend_pct ++ "%  (Rayon parallel overhead)");;
  println "";;
  print_end "Top 3 bottlenecks: " "";;
  let bottlenecks :=
    py_sorted (λ x y, neg_le fl x.2 y.2)
      [("Query Radius", query_pct); ("Diffusion", diff_pct);
       ("Mark Active", mark_pct); ("Par Extend", par_extend_pct)] in
  bottleneck_loop fl 0 (take 3 bottlenecks);;
  println "".

(** The rows of the hotspot table: the first 40 functions, in sorted
    order, whose name contains a keyword. *)
Definition hotspot_rows (func_samples : list (string * Z)) : list (string * Z) :=
  take 40 (filter (λ row, has_keyword row.1 = true) (sorted_funcs func_samples)).

(** The line the second loop prints for a row, when the percentage is
    representable. *)
Definition hotspot_line (fl : float_ops) (total_samples : Z) (row : string * Z)
    : option string :=
  pct ← percent fl row.2 total_samples;
  Some (format_5_1f fl pct ++ "%  " ++ rjust 6 (str_int row.2) ++ "  " ++ row.1 ++ newline).

(** [''.join(lines)] *)
Definition str_concat (lines : list string) : string :=
  foldr String.append "" lines.

(** ** [main] *)

(** What [main] takes from outside the program: the file system, the
    loader of the two documents, the module's docstring, float
    arithmetic, and the order in which the dictionary of counts lists its
    items, which the map returned by [analyze_samples] does not keep. *)
Record externals := {
  ext_float : float_ops;
  module_doc : string;
  path_str : string → string;
  path_exists : string → bool;
  load_profile_data : string → string → Py (profile * symbols);
  dict_items : gmap string Z → list (string * Z)
}.

(** A computation of the core whose output is a list of lines, run on
    the text of standard output. *)
Definition run_core {A : Type} (c : M (list string) A) : Py A :=
  λ out,
    let '(r, lines) := c [] in
    (match r with
     | Ok a => Returned a
     | Raise e => Raised (Core e)
     end,
     out ++ str_concat ((λ line, line ++ newline) <$> lines)).

Definition run_res {A : Type} (r : res A) : Py A :=
  λ out, (match r with
          | Ok a => Returned a
          | Raise e => Raised (Core e)
          end, out).

Definition usage_tail : string := " <profile.json[.gz]> <profile.syms.json[.gz]>".

Definition main (ext : externals) (argv : list string) : Py unit :=
  if negb (Nat.eqb (length argv) 3) then
    println (module_doc ext);;
    argv0 ← run_res (index_or_raise argv 0);
    println (newline ++ "Usage: " ++ argv0 ++ usage_tail);;
    py_raise (Core (SystemExit 1))
  else
    profile_path ← run_res (index_or_raise argv 1);
    symbols_path ← run_res (index_or_raise argv 2);
    if negb (path_exists ext profile_path) then
      println ("ERROR: Profile file not found: " ++ path_str ext profile_path);;
      py_raise (Core (SystemExit 1))
    else if negb (path_exists ext symbols_path) then
      println ("ERROR: Symbols file not found: " ++ path_str ext symbols_path);;
      py_raise (Core (SystemExit 1))
    else
      println "Loading profile data...";;
      loaded ← load_profile_data ext profile_path symbols_path;
      let profile := loaded.1 in
      let symbols := loaded.2 in
      println "Building address map...";;
      addr_to_sym ← run_core (build_address_map symbols);
      println ("  Loaded " ++ str_int (Z.of_nat (stdpp.base.size addr_to_sym)) ++
               " address mappings");;
      println "Finding main thread...";;
      main_thread ← run_res (find_main_thread profile);
      println ("  Thread: " ++ name main_thread ++ ", Samples: " ++
               str_int (samples_length main_thread));;
      println (newline ++ "Analyzing samples...");;
      analysis ← run_res (call_analyze_samples main_thread addr_to_sym []).1;
      let func_samples := analysis.1 in
      let total_samples := analysis.2 in
      println newline;;
      print_analysis (ext_float ext) (dict_items ext func_samples) total_samples.

(** ** Example collaborators *)

(** Floats kept as the fraction they stand for. *)
Definition fraction_floats : float_ops :=
  {| float := Z * Z;
     percent := λ count total, Some (count * 100, total);
     format_5_1f := λ x, rjust 5 (str_int x.1 ++ "/" ++ str_int x.2);
     format_1f := λ x, str_int x.1 ++ "/" ++ str_int x.2;
     neg_le := λ x y, y.1 * x.2 <=? x.1 * y.2 |}.

(** A file system without [missing.json], and a loader that answers by
    file name. *)
Definition example_externals : externals :=
  {| ext_float := fraction_floats;
     module_doc := "Fire Simulation Profile Analyzer";
     path_str := λ p, p;
     path_exists := λ p, negb (String.eqb p "missing.json");
     load_profile_data := λ p s,
       mret ({| threads := if String.eqb p "empty.json" then []
                           else if String.eqb p "idle.json" then [with_samples idle_thread []]
                           else [demo_thread] |},
             if String.eqb s "libc.syms.json"
             then {| data := [ {| debug_name := Some "libc"; symbol_table := [] |} ];
                     string_table := [] |}
             else demo_symbols);
     dict_items := map_to_list |}.

Definition example_counts : list (string * Z) :=
  [("alloc::vec::Vec<T,A>::push", 3); ("main", 7);
   ("fire_sim_core::simulation::FireSimulation::update", 5); ("rayon::x", 5)].

(** ** Substrings *)

Lemma append_String c s t : String c s ++ t = String c (s ++ t).
Proof. reflexivity. Qed.

Lemma append_empty t : "" ++ t = t.
Proof. reflexivity. Qed.

Lemma prefix_true_iff pat s :
  String.prefix pat s = true ↔ ∃ post, s = pat ++ post.
Proof.
  revert s. induction pat as [|c pat IH]; intros [|c' s]; simpl.
  - split; [intros _; by exists "" | done].
  - split; [intros _; by exists (String c' s) | done].
  - split; [done | intros [post Hpost]; done].
  - destruct (Ascii.ascii_dec c c') as [->|Hne].
    + rewrite IH. split; intros [post Hpost]; exists post;
        rewrite append_String in *; congruence.
    + split; [done | intros [post Hpost]; rewrite append_String in Hpost; congruence].
Qed.

Lemma str_contains_spec pat s :
  str_contains pat s = true ↔ is_substring pat s.
Proof.
  induction s as [|c s IH]; cbn [str_contains].
  - rewrite orb_false_r, prefix_true_iff. split.
    + intros [post Hpost]. by exists "", post.
    + intros (pre & post & Hs). destruct pre; [by exists post | done].
  - rewrite orb_true_iff, prefix_true_iff, IH. split.
    + intros [[post Hpost] | (pre & post & Hs)].
      * by exists "", post.
      * exists (String c pre), post. by rewrite append_String, Hs.
    + intros (pre & post & Hs). destruct pre as [|c' pre].
      * left. by exists post.
      * right. exists pre, post. rewrite append_String in Hs. congruence.
Qed.

(** ** The address map *)

Lemma foldl_insert_lookup (rva : Z) (nm : string) (l : list Z) (d : gmap Z string) (a : Z) :
  foldl (λ d offset, <[rva + offset := nm]> d) d l !! a =
  if decide (a - rva ∈ l) then Some nm else d !! a.
Proof.
  revert d. induction l as [|x l IH]; intros d; cbn [foldl].
  - rewrite decide_False; [done | apply not_elem_of_nil].
  - rewrite IH. destruct (decide (a - rva ∈ l)) as [Hin|Hin].
    + rewrite decide_True; [done | by right].
    + destruct (decide (x = a - rva)) as [->|Hne].
      * rewrite decide_True by left.
        replace (rva + (a - rva)) with a by lia. by rewrite lookup_insert_eq.
      * rewrite decide_False.
        -- rewrite lookup_insert_ne; [done | lia].
        -- intros Hx. apply elem_of_cons in Hx as [?|?]; [lia | done].
Qed.

Lemma map_range_lookup rva size nm d a :
  map_range rva size nm d !! a =
  if decide (rva ≤ a < rva + size) then Some nm else d !! a.
Proof.
  unfold map_range. rewrite foldl_insert_lookup.
  pose proof (elem_of_seqZ 0 size (a - rva)) as Hseq.
  destruct (decide (a - rva ∈ seqZ 0 size)) as [Hin|Hin].
  - apply Hseq in Hin. rewrite decide_True; [done | lia].
  - rewrite decide_False; [done|]. intros Hc. apply Hin, Hseq. lia.
Qed.

Lemma map_sym_entry_Ok st d e m :
  map_sym_entry st d e = Ok m →
  ∃ nm, py_index st (sym_symbol e) = Some nm ∧
        m = map_range (sym_rva e) (sym_size e) nm d.
Proof.
  unfold map_sym_entry, index_or_raise. simpl.
  destruct (py_index st (sym_symbol e)) as [nm|]; simpl; [|done].
  intros [= <-]. eauto.
Qed.

Lemma map_symbol_table_cons st e es d m :
  map_symbol_table st (e :: es) d = Ok m →
  ∃ nm, py_index st (sym_symbol e) = Some nm ∧
        map_symbol_table st es (map_range (sym_rva e) (sym_size e) nm d) = Ok m.
Proof.
  simpl. destruct (map_sym_entry st d e) as [d'|] eqn:He; simpl; [|done].
  intros Hm. apply map_sym_entry_Ok in He as (nm & Hnm & ->). eauto.
Qed.

(** An address no entry covers keeps what the dictionary held before. *)
Lemma map_symbol_table_uncovered st es d m a :
  map_symbol_table st es d = Ok m →
  (∀ j e', es !! j = Some e' → ¬ covers e' a) →
  m !! a = d !! a.
Proof.
  revert d. induction es as [|e es IH]; intros d Hm Hno.
  - simpl in Hm. by injection Hm as <-.
  - apply map_symbol_table_cons in Hm as (nm & _ & Hm).
    rewrite (IH _ Hm); [|intros j e' Hj; apply (Hno (S j) e' Hj)].
    rewrite map_range_lookup, decide_False; [done|].
    apply (Hno O e eq_refl).
Qed.

(** The last entry, in input order, that covers an address owns it. *)
Lemma map_symbol_table_last st es d m (i : nat) e a :
  map_symbol_table st es d = Ok m →
  es !! i = Some e → covers e a →
  (∀ j e', (i < j)%nat → es !! j = Some e' → ¬ covers e' a) →
  ∃ nm, py_index st (sym_symbol e) = Some nm ∧ m !! a = Some nm.
Proof.
  revert d i. induction es as [|e0 es IH]; intros d i Hm Hi Hc Hlater; [done|].
  apply map_symbol_table_cons in Hm as (nm & Hnm & Hm).
  destruct i as [|i]; simpl in Hi.
  - injection Hi as ->. exists nm. split; [done|].
    rewrite (map_symbol_table_uncovered _ _ _ _ a Hm).
    + rewrite map_range_lookup, decide_True; done.
    + intros j e' Hj. apply (Hlater (S j) e'); [lia | done].
  - apply (IH _ i Hm Hi Hc).
    intros j e' Hlt Hj. apply (Hlater (S j) e'); [lia | done].
Qed.

(** Every entry of a dictionary that was built names some covering entry. *)
Lemma map_symbol_table_covered st es d m a nm :
  map_symbol_table st es d = Ok m →
  m !! a = Some nm →
  d !! a = Some nm ∨
  ∃ (i : nat) e, es !! i = Some e ∧ covers e a ∧ py_index st (sym_symbol e) = Some nm.
Proof.
  revert d. induction es as [|e es IH]; intros d Hm Ha.
  - simpl in Hm. injection Hm as <-. by left.
  - apply map_symbol_table_cons in Hm as (nm0 & Hnm0 & Hm).
    destruct (IH _ Hm Ha) as [Hd | (i & e' & Hi & Hc & Hn)].
    + rewrite map_range_lookup in Hd.
      destruct (decide (sym_rva e ≤ a < sym_rva e + sym_size e)) as [Hcov|Hcov].
      * injection Hd as ->. right. exists O, e. done.
      * by left.
    + right. exists (S i), e'. done.
Qed.

Lemma build_address_map_Ok symbols out m out' :
  build_address_map symbols out = (Ok m, out') →
  out' = out ∧
  ∃ demo_lib, find_demo_lib (data symbols) = Some demo_lib ∧
    map_symbol_table (string_table symbols) (symbol_table demo_lib) ∅ = Ok m.
Proof.
  unfold build_address_map.
  destruct (find_demo_lib (data symbols)) as [demo_lib|]; [|done].
  unfold lift. intros [= Hm <-]. eauto.
Qed.

(** ** The library the resolver is built from *)

Lemma find_demo_lib_None libs :
  (∀ lib, lib ∈ libs → ¬ names_target lib) → find_demo_lib libs = None.
Proof.
  induction libs as [|lib libs IH]; intros Hno; simpl; [done|].
  destruct (str_contains target (default "" (debug_name lib))) eqn:Hc.
  - exfalso. apply (Hno lib); [left | by apply str_contains_spec].
  - apply IH. intros lib' Hin. apply Hno. by right.
Qed.


Lemma build_address_map_entries symbols out m out' :
  build_address_map symbols out = (Ok m, out') →
  map_symbol_table (string_table symbols) (entries symbols) ∅ = Ok m.
Proof.
  intros (_ & demo_lib & Hfind & Hm)%build_address_map_Ok.
  unfold entries. by rewrite Hfind.
Qed.

(** ** Fallback labels *)

Lemma fallback_label_nonempty a : fallback_label a ≠ "".
Proof. done. Qed.

Lemma fallback_label_decodes a : 0 ≤ a → HexString.to_Z (fallback_label a) = a.
Proof.
  intros Ha. rewrite <- (HexString.to_Z_of_Z a) at 2.
  destruct a as [|p|p]; [done | done | lia].
Qed.

Example fallback_label_105 : fallback_label 105 = "0x69".
Proof. reflexivity. Qed.

Example fallback_label_255 : fallback_label 255 = "0xff".
Proof. reflexivity. Qed.

Example fallback_label_0 : fallback_label 0 = "0x0".
Proof. reflexivity. Qed.

Example fallback_label_neg : fallback_label (-1) = "0x-1".
Proof. reflexivity. Qed.

(** ** Claims on the resolver *)

(** C1, counterexample: the entry [100, 110) named ["0x6e"]; address 110
    is covered by nothing, and its fallback label is again ["0x6e"]. *)
Lemma end_never_named_fails : ¬ end_never_named.
Proof.
  intros Hclaim.
  refine (Hclaim hex_named_symbols [] _ [] O
            {| sym_rva := 100; sym_size := 10; sym_symbol := 0 |} "0x6e"
            eq_refl eq_refl eq_refl _ _).
  - intros [|j] e' Hne Hj; [done | destruct j; done].
  - reflexivity.
Qed.

(** C1 (amended): an address inside [start, start+length) of an entry and
    of no other entry resolves to that entry's name; the address
    [start+length], when no different entry covers it, resolves to its
    hexadecimal fallback label, hence to the entry's name only if that name
    is itself this label. *)
Theorem resolve_half_open_range symbols out m out' (i : nat) e nm :
  build_address_map symbols out = (Ok m, out') →
  entries symbols !! i = Some e →
  entry_name symbols e = Some nm →
  (∀ a, covers e a →
        (∀ (j : nat) e', j ≠ i → entries symbols !! j = Some e' → ¬ covers e' a) →
        resolve m a = nm) ∧
  ((∀ (j : nat) e', j ≠ i → entries symbols !! j = Some e' →
      ¬ covers e' (sym_rva e + sym_size e)) →
   resolve m (sym_rva e + sym_size e) = fallback_label (sym_rva e + sym_size e) ∧
   (nm ≠ fallback_label (sym_rva e + sym_size e) →
    resolve m (sym_rva e + sym_size e) ≠ nm)).
Proof.
  intros Hm%build_address_map_entries Hi Hnm. split.
  - intros a Hc Hothers.
    destruct (map_symbol_table_last _ _ _ _ i e a Hm Hi Hc) as (nm' & Hnm' & Ha).
    + intros j e' Hlt. apply Hothers. lia.
    + unfold entry_name in Hnm. unfold resolve. rewrite Ha. simpl. congruence.
  - intros Hothers.
    assert (m !! (sym_rva e + sym_size e) = None) as Hnone.
    { rewrite (map_symbol_table_uncovered _ _ _ _ _ Hm); [done|].
      intros j e' Hj. destruct (decide (j = i)) as [->|Hne].
      - assert (e' = e) as -> by congruence. unfold covers. lia.
      - by apply (Hothers j). }
    unfold resolve. rewrite Hnone. simpl. split; [done | congruence].
Qed.

Lemma resolve_half_open_range_witness :
  resolve {[100 := "foo"; 101 := "foo"]} 101 = "foo" ∧
  resolve {[100 := "foo"; 101 := "foo"]} 102 = "0x66".
Proof.
  pose (s := {| data := [ {| debug_name := Some "demo-interactive";
                            symbol_table := [ {| sym_rva := 100; sym_size := 2; sym_symbol := 0 |} ] |} ];
                string_table := ["foo"] |}).
  pose (e := {| sym_rva := 100; sym_size := 2; sym_symbol := 0 |}).
  destruct (resolve_half_open_range s [] {[100 := "foo"; 101 := "foo"]} [] O e "foo")
    as [Hin Hend]; [vm_compute; reflexivity | reflexivity | reflexivity |].
  split.
  - apply Hin; [unfold covers; simpl; lia|].
    intros [|j] e' Hne Hj; [done | destruct j; done].
  - apply Hend. intros [|j] e' Hne Hj; [done | destruct j; done].
Defined.

(** C5: among the entries that cover an address, the last one in input
    order gives the name; the answer is a function of the input document
    alone, so every call, on every resolver built from it, returns it. *)
Theorem resolve_last_covering_entry symbols out m out' (i : nat) e a :
  build_address_map symbols out = (Ok m, out') →
  entries symbols !! i = Some e →
  covers e a →
  (∀ (j : nat) e', (i < j)%nat → entries symbols !! j = Some e' → ¬ covers e' a) →
  ∃ nm, entry_name symbols e = Some nm ∧ resolve m a = nm ∧
        ∀ out2 m2 out2', build_address_map symbols out2 = (Ok m2, out2') →
                         resolve m2 a = nm.
Proof.
  intros Hm%build_address_map_entries Hi Hc Hlater.
  destruct (map_symbol_table_last _ _ _ _ i e a Hm Hi Hc Hlater) as (nm & Hnm & Ha).
  exists nm. split; [done|]. split.
  - unfold resolve. by rewrite Ha.
  - intros out2 m2 out2' Hm2%build_address_map_entries.
    assert (m2 = m) as -> by congruence. unfold resolve. by rewrite Ha.
Qed.

Lemma resolve_last_covering_entry_witness :
  resolve overlapping_map 107 = "bar".
Proof.
  destruct (resolve_last_covering_entry overlapping_symbols [] overlapping_map [] 1%nat
              {| sym_rva := 105; sym_size := 10; sym_symbol := 1 |} 107)
    as (nm & Hnm & Hr & _).
  - vm_compute. reflexivity.
  - reflexivity.
  - unfold covers; simpl; lia.
  - intros [|[|[|j]]] e' Hlt Hj; try lia; done.
  - vm_compute in Hnm. injection Hnm as <-. exact Hr.
Defined.

(** C6, counterexample: an entry whose name in the string table is the
    empty string; every address it covers resolves to [""]. *)
Lemma resolve_never_empty_fails : ¬ resolve_never_empty.
Proof.
  intros Hclaim.
  apply (Hclaim unnamed_symbols [] _ [] 105 eq_refl).
  reflexivity.
Qed.

(** C6 (amended): the lookup never raises; an address covered by no entry
    resolves to its fallback label ["0x" ++ hex], which is never empty and
    reads back as the address; the result is the empty string only when
    a covering entry's name is the empty string. *)
Theorem resolve_fallback symbols out m out' a :
  build_address_map symbols out = (Ok m, out') →
  (∀ h, read (λ h, resolve (h_addr_to_sym h) a) h = (Ok (resolve (h_addr_to_sym h) a), h)) ∧
  ((∀ (j : nat) e', entries symbols !! j = Some e' → ¬ covers e' a) →
   resolve m a = fallback_label a) ∧
  fallback_label a = "0x" ++ format_x a ∧
  fallback_label a ≠ "" ∧
  (0 ≤ a → HexString.to_Z (fallback_label a) = a) ∧
  (resolve m a = "" →
   ∃ (i : nat) e, entries symbols !! i = Some e ∧ covers e a ∧
                  entry_name symbols e = Some "").
Proof.
  intros Hm%build_address_map_entries.
  split; [done|]. split; [|split; [done|]; split; [done|]; split].
  - intros Hno. unfold resolve.
    by rewrite (map_symbol_table_uncovered _ _ _ _ _ Hm Hno).
  - apply fallback_label_decodes.
  - unfold resolve. destruct (m !! a) as [nm|] eqn:Ha; simpl; [|done].
    intros ->.
    destruct (map_symbol_table_covered _ _ _ _ _ _ Hm Ha) as [Hd|Hex]; [done|].
    exact Hex.
Qed.

Lemma resolve_fallback_witness :
  resolve overlapping_map 99 = "0x63".
Proof.
  destruct (resolve_fallback overlapping_symbols [] overlapping_map [] 99)
    as (_ & Hfb & _); [vm_compute; reflexivity|].
  apply Hfb.
  intros [|[|[|j]]] e' Hj; try done; injection Hj as <-; unfold covers; simpl; lia.
Defined.

(** C8, counterexample: the target library is found with an empty symbol
    table, and the empty resolver is returned without a word. *)
Lemma empty_table_is_fatal_fails : ¬ empty_table_is_fatal.
Proof.
  intros Hclaim.
  destruct (Hclaim empty_table_symbols []) as (e & out' & Hb).
  - right. eexists. split; reflexivity.
  - discriminate Hb.
Qed.

(** C8 (amended): when no library's debug name contains the target, the
    diagnostic is printed and the run exits with status 1; when the
    library found has an empty symbol table, building succeeds, prints
    nothing and returns the empty resolver. *)
Theorem build_address_map_missing_or_empty symbols out :
  ((∀ lib, lib ∈ data symbols → ¬ names_target lib) →
   build_address_map symbols out =
     (Raise (SystemExit 1), (out ++ [missing_lib_message])%list)) ∧
  (∀ demo_lib, find_demo_lib (data symbols) = Some demo_lib →
               symbol_table demo_lib = [] →
               build_address_map symbols out = (Ok ∅, out) ∧
               ∀ a, resolve ∅ a = fallback_label a).
Proof.
  split.
  - intros Hno%find_demo_lib_None. unfold build_address_map. by rewrite Hno.
  - intros demo_lib Hfind Hempty. unfold build_address_map.
    rewrite Hfind, Hempty. done.
Qed.

Lemma build_address_map_missing_or_empty_witness :
  build_address_map {| data := [ {| debug_name := Some "libc"; symbol_table := [] |} ];
                       string_table := [] |} ["Building address map..."] =
    (Raise (SystemExit 1),
     ["Building address map...";
      "ERROR: Could not find demo-interactive library in symbols"]) ∧
  build_address_map empty_table_symbols [] = (Ok ∅, []).
Proof.
  split.
  - apply build_address_map_missing_or_empty.
    intros lib Hin. apply list_elem_of_singleton in Hin as ->.
    intros Hsub%str_contains_spec. discriminate Hsub.
  - eapply build_address_map_missing_or_empty; reflexivity.
Defined.

(** ** The thread selector *)

Lemma names_target_or_main_spec t :
  names_target_or_main t = true ↔
  is_substring target (default "" (processName t)) ∨ isMainThread t = Some true.
Proof.
  unfold names_target_or_main. rewrite orb_true_iff, str_contains_spec.
  destruct (isMainThread t) as [[|]|]; simpl.
  - split; intros _; by right.
  - split; (intros [H|H]; [by left | done]).
  - split; (intros [H|H]; [by left | done]).
Qed.

Lemma qualifiesb_spec t : qualifiesb t = true ↔ qualifies t.
Proof.
  unfold qualifiesb, qualifies.
  rewrite andb_true_iff, names_target_or_main_spec, Z.ltb_lt. done.
Qed.

Lemma first_main_thread_step t ts :
  first_main_thread (t :: ts) =
  if qualifiesb t then Some t else first_main_thread ts.
Proof.
  unfold qualifiesb. simpl.
  destruct (names_target_or_main t); simpl; [|done].
  by destruct (100 <? samples_length t).
Qed.

Lemma first_main_thread_first ts (i : nat) t :
  ts !! i = Some t → qualifies t →
  (∀ (j : nat) t', (j < i)%nat → ts !! j = Some t' → ¬ qualifies t') →
  first_main_thread ts = Some t.
Proof.
  revert i. induction ts as [|t0 ts IH]; intros i Hi Hq Hbefore; [done|].
  rewrite first_main_thread_step. destruct i as [|i]; simpl in Hi.
  - injection Hi as ->. apply qualifiesb_spec in Hq. by rewrite Hq.
  - destruct (qualifiesb t0) eqn:Hq0.
    + exfalso. apply (Hbefore O t0); [lia | done | by apply qualifiesb_spec].
    + apply (IH i); [done | done |].
      intros j t' Hlt Hj. apply (Hbefore (S j)); [lia | done].
Qed.

Lemma first_main_thread_None ts :
  (∀ t, t ∈ ts → ¬ qualifies t) → first_main_thread ts = None.
Proof.
  induction ts as [|t0 ts IH]; intros Hno; [done|].
  rewrite first_main_thread_step. destruct (qualifiesb t0) eqn:Hq0.
  - exfalso. apply (Hno t0); [left | by apply qualifiesb_spec].
  - apply IH. intros t Hin. apply Hno. by right.
Qed.

Lemma max_from_spec {A : Type} (key : A → Z) (best : A) (l : list A) :
  max_from key best l ∈ best :: l ∧
  ∀ x, x ∈ best :: l → key x ≤ key (max_from key best l).
Proof.
  revert best. induction l as [|y l IH]; intros best; simpl.
  - split; [left|]. intros x Hx. apply list_elem_of_singleton in Hx as ->. lia.
  - destruct (key best <? key y) eqn:Hlt.
    + destruct (IH y) as [Hin Hmax]. split; [by right|].
      intros x Hx. apply elem_of_cons in Hx as [->|Hx]; [|by apply Hmax].
      specialize (Hmax y (list_elem_of_here _ _)). lia.
    + destruct (IH best) as [Hin Hmax]. split.
      * apply elem_of_cons in Hin as [->|Hin]; [left | right; by right].
      * intros x Hx. apply elem_of_cons in Hx as [->|Hx]; [apply Hmax; left|].
        apply elem_of_cons in Hx as [->|Hx]; [|apply Hmax; by right].
        specialize (Hmax best (list_elem_of_here _ _)). lia.
Qed.

(** C3: on a non-empty list of threads, [find_main_thread] returns the
    first thread that (names the target in its process name or is flagged
    main) and has more than 100 samples; when no thread does, it returns
    a thread of the list whose sample count is the maximum. *)
Theorem find_main_thread_selects (p : profile) :
  threads p ≠ [] →
  (∀ (i : nat) t,
      threads p !! i = Some t → qualifies t →
      (∀ (j : nat) t', (j < i)%nat → threads p !! j = Some t' → ¬ qualifies t') →
      find_main_thread p = Ok t) ∧
  ((∀ t, t ∈ threads p → ¬ qualifies t) →
   ∃ t, find_main_thread p = Ok t ∧ t ∈ threads p ∧
        ∀ t', t' ∈ threads p → samples_length t' ≤ samples_length t).
Proof.
  intros Hne. split.
  - intros i t Hi Hq Hbefore. unfold find_main_thread.
    by rewrite (first_main_thread_first _ i t Hi Hq Hbefore).
  - intros Hno. unfold find_main_thread.
    rewrite (first_main_thread_None _ Hno).
    destruct (threads p) as [|t0 ts]; [done|]. simpl.
    destruct (max_from_spec samples_length t0 ts) as [Hin Hmax]. eauto.
Qed.

Lemma find_main_thread_selects_witness :
  find_main_thread {| threads := [worker 500; idle_main; busy_main; worker 900] |} = Ok busy_main.
Proof.
  apply (find_main_thread_selects
           {| threads := [worker 500; idle_main; busy_main; worker 900] |})
    with (i := 2%nat); [done | reflexivity | |].
  - apply qualifiesb_spec. reflexivity.
  - intros [|[|j]] t' Hlt Hj Hq%qualifiesb_spec; [| |simpl in Hlt; lia];
      injection Hj as <-; discriminate Hq.
Defined.

(** ** The aggregator: one step of the walk *)

Lemma walk_0 cur vis fs h : walk 0 cur vis fs h = (Ok fs, h).
Proof. done. Qed.

Lemma walk_None n vis fs h : walk n None vis fs h = (Ok fs, h).
Proof. by destruct n. Qed.

Lemma walk_negative n c vis fs h : c < 0 → walk n (Some c) vis fs h = (Ok fs, h).
Proof.
  intros Hc. destruct n; [done|]. simpl.
  by replace (c <? 0) with true by lia.
Qed.

Lemma walk_visited n c vis fs h : c ∈ vis → walk n (Some c) vis fs h = (Ok fs, h).
Proof.
  intros Hc. destruct n; [done|]. simpl.
  destruct (c <? 0); [done|]. by rewrite decide_True.
Qed.

(** One iteration on a fresh, non-negative stack id. *)
Lemma walk_step n c vis fs h :
  0 ≤ c → c ∉ vis →
  walk (S n) (Some c) vis fs h =
  match frame_name (h_thread h) (h_addr_to_sym h) c with
  | None => (Raise IndexError, h)
  | Some nm =>
      match py_index (stackTable_prefix (h_thread h)) c with
      | None => (Raise IndexError, h)
      | Some nxt => walk n nxt ({[c]} ∪ vis) (bump nm fs) h
      end
  end.
Proof.
  intros Hc Hvis. cbn [walk].
  replace (c <? 0) with false by lia. rewrite decide_False by done.
  unfold frame_name, mbind, M_mbind, M_bind, read_index, read, index_or_raise.
  destruct (py_index (stackTable_frame (h_thread h)) c) as [f|]; simpl; [|done].
  destruct (py_index (frameTable_address (h_thread h)) f) as [a|]; simpl; [|done].
  by destruct (py_index (stackTable_prefix (h_thread h)) c) as [nxt|].
Qed.

(** The three ways an iteration can go at stack id [c]: a negative id, an
    id already visited, or a fresh one. *)
Ltac walk_cases c vis :=
  destruct (decide (c < 0));
    [rewrite walk_negative by done
    |destruct (decide (c ∈ vis));
       [rewrite walk_visited by done
       |rewrite walk_step by (done || lia)]].

(** The walk only reads the state. *)
Lemma walk_heap n cur vis fs h : (walk n cur vis fs h).2 = h.
Proof.
  revert cur vis fs. induction n as [|n IH]; intros cur vis fs; [done|].
  destruct cur as [c|]; [|done].
  walk_cases c vis; [done | done |].
  destruct (frame_name _ _ c); [|done].
  destruct (py_index _ c); [apply IH | done].
Qed.

Lemma walk_samples_cons_skip s rest fs h :
  (s = None ∨ ∃ i, s = Some i ∧ i < 0) →
  walk_samples (s :: rest) fs h = walk_samples rest fs h.
Proof.
  intros [->|(i & -> & Hi)]; [done|]. cbn [walk_samples].
  replace (i <? 0) with true by lia. reflexivity.
Qed.

Lemma walk_samples_cons_walk i rest fs h :
  0 ≤ i →
  walk_samples (Some i :: rest) fs h =
  match walk depth_cap (Some i) ∅ fs h with
  | (Ok fs', h') => walk_samples rest fs' h'
  | (Raise e, h') => (Raise e, h')
  end.
Proof.
  intros Hi. cbn [walk_samples]. replace (i <? 0) with false by lia.
  unfold mbind, M_mbind, M_bind. reflexivity.
Qed.

(** A sample is skipped, for a negative or an absent stack id, or walked. *)
Ltac sample_cases s i :=
  destruct s as [i|];
    [destruct (decide (i < 0));
       [rewrite ?walk_samples_cons_skip by (right; eauto)
       |rewrite ?walk_samples_cons_walk by lia]
    |rewrite ?walk_samples_cons_skip by (by left)].

Lemma walk_samples_heap l fs h : (walk_samples l fs h).2 = h.
Proof.
  revert fs. induction l as [|s l IH]; intros fs; [done|].
  sample_cases s i; [apply IH | | apply IH].
  pose proof (walk_heap depth_cap (Some i) ∅ fs h) as Hh.
  destruct (walk depth_cap (Some i) ∅ fs h) as [[fs'|e] h']; simpl in Hh; subst h'.
  - apply IH.
  - done.
Qed.

(** Samples are processed one after the other: the counts reached after
    the first part of the sequence are those the rest starts from. *)
Lemma walk_samples_app l1 l2 fs h :
  walk_samples (l1 ++ l2) fs h =
  match walk_samples l1 fs h with
  | (Ok fs1, h1) => walk_samples l2 fs1 h1
  | (Raise e, h1) => (Raise e, h1)
  end.
Proof.
  revert fs h. induction l1 as [|s l1 IH]; intros fs h; [done|].
  rewrite <- app_comm_cons.
  sample_cases s i; [apply IH | | apply IH].
  destruct (walk depth_cap (Some i) ∅ fs h) as [[fs'|e] h']; [apply IH | done].
Qed.

Lemma analyze_samples_unfold h :
  analyze_samples h =
  match walk_samples (samples_stack (h_thread h)) ∅ h with
  | (Ok fs, h') => (Ok (fs, Z.of_nat (length (samples_stack (h_thread h)))), h')
  | (Raise e, h') => (Raise e, h')
  end.
Proof.
  unfold analyze_samples, mbind, M_mbind, M_bind, read. simpl.
  by destruct (walk_samples _ ∅ h) as [[fs|e] h'].
Qed.

Lemma analyze_samples_heap h : (analyze_samples h).2 = h.
Proof.
  rewrite analyze_samples_unfold.
  pose proof (walk_samples_heap (samples_stack (h_thread h)) ∅ h) as Hh.
  by destruct (walk_samples _ ∅ h) as [[fs|e] h'].
Qed.

(** ** The aggregator: well-formed tables *)

Lemma py_index_nonneg {A : Type} (l : list A) (i : Z) :
  0 ≤ i → py_index l i = l !! Z.to_nat i.
Proof. intros Hi. unfold py_index. by replace (0 <=? i) with true by lia. Qed.

Lemma py_index_is_Some {A : Type} (l : list A) (i : Z) :
  - Z.of_nat (length l) ≤ i < Z.of_nat (length l) → is_Some (py_index l i).
Proof.
  intros Hi. unfold py_index. destruct (0 <=? i) eqn:H0.
  - apply lookup_lt_is_Some. lia.
  - replace (- Z.of_nat (length l) <=? i) with true by lia.
    apply lookup_lt_is_Some. lia.
Qed.

Lemma walk_total th m out n cur vis fs :
  tables_closed th →
  closed_id (Z.of_nat (length (stackTable_frame th))) cur →
  ∃ fs', walk n cur vis fs (mk_heap th m out) = (Ok fs', mk_heap th m out).
Proof.
  intros (Hlen & Hframes & Hprefix & _).
  revert cur vis fs. induction n as [|n IH]; intros cur vis fs Hcur; [by eexists|].
  destruct cur as [c|]; [|by eexists].
  walk_cases c vis; [by eexists | by eexists |].
  simpl in Hcur. cbn [h_thread h_addr_to_sym mk_heap].
  unfold frame_name. rewrite !py_index_nonneg by lia.
  destruct (lookup_lt_is_Some_2 (stackTable_frame th) (Z.to_nat c)) as [f Hf]; [lia|].
  rewrite Hf. cbn [mbind option_bind].
  rewrite Forall_lookup in Hframes. specialize (Hframes _ _ Hf).
  destruct (py_index_is_Some (frameTable_address th) f Hframes) as [a Ha].
  rewrite Ha. cbn [mbind option_bind].
  destruct (lookup_lt_is_Some_2 (stackTable_prefix th) (Z.to_nat c)) as [nxt Hnxt]; [lia|].
  rewrite Hnxt. apply IH.
  rewrite Forall_lookup in Hprefix. exact (Hprefix _ _ Hnxt).
Qed.

Lemma walk_samples_total th m out l fs :
  tables_closed th →
  Forall (closed_id (Z.of_nat (length (stackTable_frame th)))) l →
  ∃ fs', walk_samples l fs (mk_heap th m out) = (Ok fs', mk_heap th m out).
Proof.
  intros Hth. revert fs. induction l as [|s l IH]; intros fs Hl; [by eexists|].
  apply Forall_cons in Hl as [Hs Hl].
  sample_cases s i; [by apply IH | | by apply IH].
  destruct (walk_total th m out depth_cap (Some i) ∅ fs Hth Hs) as [fs' ->].
  by apply IH.
Qed.

Lemma cyclic_thread_closed : tables_closed cyclic_thread.
Proof.
  unfold tables_closed, cyclic_thread, closed_id; simpl.
  split; [reflexivity|]. repeat split; repeat constructor; lia.
Defined.

(** ** The aggregator: what a walk adds to the counts *)

Lemma count_all_app names1 names2 fs :
  count_all (names1 ++ names2) fs = count_all names2 (count_all names1 fs).
Proof. apply foldl_app. Qed.

Lemma total_count_bump nm fs : total_count (bump nm fs) = total_count fs + 1.
Proof.
  unfold bump, total_count. destruct (fs !! nm) as [c|] eqn:Hnm; simpl.
  - rewrite <- insert_delete_eq.
    rewrite map_fold_insert_L; [|intros; lia | apply lookup_delete_eq].
    rewrite (map_fold_delete_L _ _ nm c fs); [lia | intros; lia | done].
  - rewrite map_fold_insert_L; [lia | intros; lia | done].
Qed.

Lemma total_count_count_all names fs :
  total_count (count_all names fs) = total_count fs + Z.of_nat (length names).
Proof.
  revert fs. induction names as [|nm names IH]; intros fs.
  - unfold count_all. simpl. lia.
  - change (count_all (nm :: names) fs) with (count_all names (bump nm fs)).
    rewrite IH, total_count_bump. cbn [length]. lia.
Qed.

Lemma bump_positive nm fs : counts_positive fs → counts_positive (bump nm fs).
Proof.
  intros Hfs. apply map_Forall_insert_2; [|done].
  destruct (fs !! nm) as [c|] eqn:Hnm; simpl; [|lia].
  specialize (Hfs nm c Hnm). simpl in Hfs. lia.
Qed.

Lemma count_all_positive names fs :
  counts_positive fs → counts_positive (count_all names fs).
Proof.
  revert fs. induction names as [|nm names IH]; intros fs Hfs; [done|].
  apply IH. by apply bump_positive.
Qed.

(** Whatever the tables hold, a walk that returns has incremented at most
    one count per iteration of its loop. *)
Lemma walk_counts n cur vis fs h fs' :
  (walk n cur vis fs h).1 = Ok fs' →
  ∃ names, (length names ≤ n)%nat ∧ fs' = count_all names fs.
Proof.
  revert cur vis fs. induction n as [|n IH]; intros cur vis fs.
  { intros [= <-]. exists []. done. }
  destruct cur as [c|]; [|intros [= <-]; exists []; split; [simpl; lia | done]].
  walk_cases c vis;
    [intros [= <-]; exists []; split; [simpl; lia | done] ..|].
  destruct (frame_name _ _ c) as [nm|]; [|done].
  destruct (py_index _ c) as [nxt|]; [|done].
  intros (names & Hlen & ->)%IH. exists (nm :: names). split; [simpl; lia | done].
Qed.

Lemma walk_samples_counts l fs h fs' :
  (walk_samples l fs h).1 = Ok fs' →
  ∃ names, (length names ≤ 50 * length l)%nat ∧ fs' = count_all names fs.
Proof.
  revert fs h. induction l as [|s l IH]; intros fs h.
  { intros [= <-]. exists []. done. }
  assert (∀ fs h, (walk_samples l fs h).1 = Ok fs' →
            ∃ names, (length names ≤ 50 * length (s :: l))%nat ∧ fs' = count_all names fs)
    as Hskip.
  { intros fs0 h0 (names & Hlen & ->)%IH. exists names. split; [simpl; lia | done]. }
  sample_cases s i; [apply Hskip | | apply Hskip].
  pose proof (walk_counts depth_cap (Some i) ∅ fs h) as Hwalk.
  destruct (walk depth_cap (Some i) ∅ fs h) as [[fs1|e] h1]; [|done].
  destruct (Hwalk fs1 eq_refl) as (names1 & Hlen1 & ->).
  intros (names & Hlen & ->)%IH. exists (names1 ++ names)%list. split.
  - rewrite length_app. unfold depth_cap in Hlen1. simpl. lia.
  - by rewrite count_all_app.
Qed.

(** ** The aggregator: walking a chain *)

Lemma mapM_cons_Some {A B : Type} (f : A → option B) x l k :
  mapM f (x :: l) = Some k →
  ∃ y k', f x = Some y ∧ mapM f l = Some k' ∧ k = y :: k'.
Proof.
  intros H%mapM_Some_1. apply Forall2_cons_inv_l in H as (y & k' & Hy & Hk' & ->).
  exists y, k'. split; [done|]. split; [by apply mapM_Some_2 | done].
Qed.

Lemma chain_take th cur cs last (k : nat) :
  chain th cur cs last → ∃ last', chain th cur (take k cs) last'.
Proof.
  revert cur k. induction cs as [|c cs IH]; intros cur k Hchain.
  - exists last. by destruct k.
  - destruct k as [|k]; [by exists cur|].
    destruct Hchain as (Hcur & Hc & Hnext). simpl.
    destruct (py_index (stackTable_prefix th) c) as [nxt|]; [|done].
    destruct (IH nxt k Hnext) as [last' Hlast']. by exists last'.
Qed.

(** Along a chain of distinct fresh ids the walk attributes one frame per
    id and carries on from the end of the chain with what is left of its
    iterations. *)
Lemma walk_chain th m out cs cur last names (n : nat) vis fs :
  chain th cur cs last →
  mapM (frame_name th m) cs = Some names →
  NoDup cs →
  (∀ c, c ∈ cs → c ∉ vis) →
  walk (length cs + n) cur vis fs (mk_heap th m out) =
  walk n last (list_to_set cs ∪ vis) (count_all names fs) (mk_heap th m out).
Proof.
  revert cur names vis fs.
  induction cs as [|c cs IH]; intros cur names vis fs Hchain Hnames Hnodup Hfresh.
  - simpl in Hchain, Hnames. injection Hnames as <-. subst last.
    cbn [length Nat.add list_to_set]. by rewrite (left_id_L ∅ (∪)).
  - destruct Hchain as (-> & Hc & Hnext).
    destruct (py_index (stackTable_prefix th) c) as [nxt|] eqn:Hprefix; [|done].
    apply mapM_cons_Some in Hnames as (nm & names' & Hnm & Hnames' & ->).
    apply NoDup_cons in Hnodup as [Hnotin Hnodup].
    cbn [length Nat.add]. rewrite walk_step; [|done|apply Hfresh; left].
    cbn [h_thread h_addr_to_sym mk_heap]. rewrite Hnm, Hprefix.
    rewrite (IH nxt names' ({[c]} ∪ vis) (bump nm fs) Hnext Hnames' Hnodup).
    + f_equal. cbn [list_to_set].
      by rewrite (assoc_L (∪)), (comm_L (∪) (list_to_set cs) {[c]}).
    + intros c' Hin. apply not_elem_of_union. split.
      * apply not_elem_of_singleton. intros ->. done.
      * apply Hfresh. by right.
Qed.

(** The chain is at least as long as the iterations left: the loop runs
    out and has attributed one frame per iteration. *)
Lemma walk_chain_capped th m out cs cur last names (n : nat) fs :
  chain th cur cs last →
  mapM (frame_name th m) cs = Some names →
  NoDup cs →
  (n ≤ length cs)%nat →
  walk n cur ∅ fs (mk_heap th m out) =
    (Ok (count_all (take n names) fs), mk_heap th m out).
Proof.
  intros Hchain Hnames Hnodup Hlen.
  destruct (chain_take th cur cs last n Hchain) as [last' Hchain'].
  assert (mapM (frame_name th m) (take n cs) = Some (take n names)) as Hnames'.
  { apply mapM_Some_2, Forall2_take. by apply mapM_Some_1. }
  assert (NoDup (take n cs)) as Hnodup'.
  { eapply sublist_NoDup; [exact Hnodup | apply sublist_take]. }
  pose proof (walk_chain th m out (take n cs) cur last' (take n names) 0 ∅ fs
                Hchain' Hnames' Hnodup') as Hwalk.
  rewrite length_take_le, Nat.add_0_r in Hwalk by done.
  rewrite Hwalk; [done|]. intros c _. apply not_elem_of_empty.
Qed.

Lemma walk_chain_ended th m out cs cur last names (n : nat) fs :
  chain th cur cs last →
  chain_ends cs last →
  mapM (frame_name th m) cs = Some names →
  NoDup cs →
  walk n cur ∅ fs (mk_heap th m out) =
    (Ok (count_all (take n names) fs), mk_heap th m out).
Proof.
  intros Hchain Hends Hnames Hnodup.
  destruct (decide (n ≤ length cs)%nat) as [Hle|Hgt].
  { by apply (walk_chain_capped th m out cs cur last). }
  assert (length names = length cs) as Hlen.
  { symmetry. eapply Forall2_length. by apply mapM_Some_1. }
  rewrite take_ge by lia.
  replace n with (length cs + (n - length cs))%nat by lia.
  rewrite (walk_chain th m out cs cur last names _ ∅ fs Hchain Hnames Hnodup);
    [|intros c _; apply not_elem_of_empty].
  destruct last as [b|]; [|apply walk_None].
  destruct Hends as [Hneg|Hin]; [by apply walk_negative|].
  apply walk_visited. apply elem_of_union_l. by apply elem_of_list_to_set.
Qed.

Lemma chain_head_nonneg th c0 cs last :
  chain th (Some c0) cs last → cs ≠ [] → 0 ≤ c0.
Proof.
  destruct cs as [|c cs]; [done|]. intros ([= ->] & Hc & _) _. done.
Qed.

(** ** Claims on the aggregator *)

(** C9: aggregation leaves the thread's tables, the address map and
    standard output exactly as it found them, whether it returns or
    raises. *)
Theorem analyze_samples_reads_only (th : thread) (m : gmap Z string) (out : list string) :
  (call_analyze_samples th m out).2 =
    {| h_thread := th; h_addr_to_sym := m; h_stdout := out |}.
Proof. apply analyze_samples_heap. Qed.

(** C2: the second component returned by [analyze_samples] is the length
    of the thread's sample sequence, whatever happened to each sample; and
    on tables whose indices all point inside their tables it does return. *)
Theorem total_samples_is_sequence_length (th : thread) (m : gmap Z string) (out : list string) :
  (∀ func_samples total_samples,
      (call_analyze_samples th m out).1 = Ok (func_samples, total_samples) →
      total_samples = Z.of_nat (length (samples_stack th))) ∧
  (tables_closed th →
   ∃ func_samples,
     (call_analyze_samples th m out).1 =
       Ok (func_samples, Z.of_nat (length (samples_stack th)))).
Proof.
  unfold call_analyze_samples. rewrite analyze_samples_unfold.
  cbn [h_thread]. split.
  - intros fs total.
    destruct (walk_samples _ ∅ _) as [[fs'|e] h']; simpl; [|done].
    by intros [= _ <-].
  - intros Hth. pose proof Hth as (_ & _ & _ & Hsamples).
    destruct (walk_samples_total th m out _ ∅ Hth Hsamples) as [fs' Hfs].
    unfold mk_heap in Hfs. rewrite Hfs. by eexists.
Qed.

Lemma total_samples_is_sequence_length_witness :
  5 = Z.of_nat (length (samples_stack cyclic_thread)) ∧
  ∃ func_samples,
    (call_analyze_samples cyclic_thread overlapping_map []).1 = Ok (func_samples, 5).
Proof.
  split.
  - apply (total_samples_is_sequence_length cyclic_thread overlapping_map [])
      with (func_samples := {["bar" := 3; "0xc8" := 1]}).
    vm_compute. reflexivity.
  - apply (total_samples_is_sequence_length cyclic_thread overlapping_map []).
    exact cyclic_thread_closed.
Defined.

(** C10: every name in the counts [analyze_samples] returns has a count of
    at least 1; the counts are exactly what attributing a list of walked
    frames, one at a time, to an empty table gives. *)
Theorem function_counts_positive (th : thread) (m : gmap Z string) (out : list string)
    func_samples total_samples :
  (call_analyze_samples th m out).1 = Ok (func_samples, total_samples) →
  (∃ names, func_samples = count_all names ∅) ∧
  ∀ func_name count, func_samples !! func_name = Some count → 1 ≤ count.
Proof.
  unfold call_analyze_samples. rewrite analyze_samples_unfold. cbn [h_thread].
  pose proof (walk_samples_counts (samples_stack th) ∅
                {| h_thread := th; h_addr_to_sym := m; h_stdout := out |}) as Hcounts.
  destruct (walk_samples _ ∅ _) as [[fs|e] h']; [|done].
  destruct (Hcounts fs eq_refl) as (names & _ & ->).
  intros [= <- _]. split; [by exists names|].
  intros nm c Hnm.
  exact (count_all_positive names ∅ (map_Forall_empty _) nm c Hnm).
Qed.

Lemma function_counts_positive_witness : 1 ≤ 3.
Proof.
  apply (function_counts_positive cyclic_thread overlapping_map []
           {["bar" := 3; "0xc8" := 1]} 5) with (func_name := "bar").
  - vm_compute. reflexivity.
  - vm_compute. reflexivity.
Defined.

(** C4: when the chain of a sample runs into a stack id it has already
    visited, the walk stops there and returns the counts of the frames met
    so far (at most 50 of them); the samples after it are processed from
    those counts, and the sample is counted in the total. *)
Theorem cyclic_walk_stops th m out pre c0 post cs back names :
  samples_stack th = (pre ++ Some c0 :: post)%list →
  chain th (Some c0) cs (Some back) → back ∈ cs → NoDup cs →
  mapM (frame_name th m) cs = Some names →
  (∀ (n : nat) c vis fs,
      c ∈ vis → walk n (Some c) vis fs (mk_heap th m out) = (Ok fs, mk_heap th m out)) ∧
  (∀ fs, walk depth_cap (Some c0) ∅ fs (mk_heap th m out) =
           (Ok (count_all (take 50 names) fs), mk_heap th m out)) ∧
  (∀ fs1, walk_samples pre ∅ (mk_heap th m out) = (Ok fs1, mk_heap th m out) →
          walk_samples (samples_stack th) ∅ (mk_heap th m out) =
          walk_samples post (count_all (take 50 names) fs1) (mk_heap th m out)) ∧
  (∀ fs1 fs2,
      walk_samples pre ∅ (mk_heap th m out) = (Ok fs1, mk_heap th m out) →
      walk_samples post (count_all (take 50 names) fs1) (mk_heap th m out) =
        (Ok fs2, mk_heap th m out) →
      analyze_samples (mk_heap th m out) =
        (Ok (fs2, Z.of_nat (length pre) + 1 + Z.of_nat (length post)), mk_heap th m out)).
Proof.
  intros Hsamples Hchain Hback Hnodup Hnames.
  assert (∀ fs, walk depth_cap (Some c0) ∅ fs (mk_heap th m out) =
                  (Ok (count_all (take 50 names) fs), mk_heap th m out)) as Hwalk.
  { intros fs.
    apply (walk_chain_ended th m out cs (Some c0) (Some back) names depth_cap fs);
      [done | by right | done | done]. }
  assert (0 ≤ c0) as Hc0.
  { apply (chain_head_nonneg th c0 cs (Some back) Hchain). intros ->.
    by apply elem_of_nil in Hback. }
  assert (∀ fs1, walk_samples pre ∅ (mk_heap th m out) = (Ok fs1, mk_heap th m out) →
                 walk_samples (samples_stack th) ∅ (mk_heap th m out) =
                 walk_samples post (count_all (take 50 names) fs1) (mk_heap th m out))
    as Hrest.
  { intros fs1 Hpre.
    rewrite Hsamples, walk_samples_app, Hpre, walk_samples_cons_walk by done.
    by rewrite Hwalk. }
  split; [intros n c vis fs Hin; by apply walk_visited|].
  split; [exact Hwalk|]. split; [exact Hrest|].
  intros fs1 fs2 Hpre Hpost. rewrite analyze_samples_unfold.
  cbn [h_thread mk_heap]. fold (mk_heap th m out).
  rewrite (Hrest fs1 Hpre), Hpost, Hsamples, length_app. cbn [length].
  do 3 f_equal. lia.
Qed.

Lemma cyclic_walk_stops_witness :
  analyze_samples (mk_heap cyclic_thread overlapping_map []) =
    (Ok ({["bar" := 3; "0xc8" := 1]}, 5), mk_heap cyclic_thread overlapping_map []).
Proof.
  apply (cyclic_walk_stops cyclic_thread overlapping_map []
           [Some 2; None] 0 [Some (-1); Some 2] [0; 1] 0 ["bar"; "0xc8"])
    with (fs1 := {["bar" := 1]}).
  - reflexivity.
  - simpl. repeat split; lia.
  - left.
  - apply (bool_decide_unpack _). vm_compute. exact I.
  - vm_compute. reflexivity.
  - vm_compute. reflexivity.
  - vm_compute. reflexivity.
Defined.

(** C7: on a chain of 50 or more distinct stack ids the walk returns,
    without an error, after attributing exactly the first 50 frames,
    whatever comes after them; and whatever the tables hold, one walk adds
    at most 50 to the counts. *)
Theorem walk_stops_at_depth_cap th m out c0 cs last names fs :
  chain th (Some c0) cs last → NoDup cs →
  mapM (frame_name th m) cs = Some names →
  (50 ≤ length cs)%nat →
  walk depth_cap (Some c0) ∅ fs (mk_heap th m out) =
    (Ok (count_all (take 50 names) fs), mk_heap th m out) ∧
  length (take 50 names) = 50%nat ∧
  total_count (count_all (take 50 names) fs) = total_count fs + 50 ∧
  (∀ cur vis fs0 h fs',
      (walk depth_cap cur vis fs0 h).1 = Ok fs' →
      total_count fs0 ≤ total_count fs' ≤ total_count fs0 + 50).
Proof.
  intros Hchain Hnodup Hnames Hlen.
  assert (length names = length cs) as Hlen'.
  { symmetry. eapply Forall2_length. by apply mapM_Some_1. }
  assert (length (take 50 names) = 50%nat) as Htake by (rewrite length_take; lia).
  split.
  { apply (walk_chain_capped th m out cs (Some c0) last names depth_cap fs);
      [done | done | done | unfold depth_cap; lia]. }
  split; [done|]. split.
  { rewrite total_count_count_all, Htake. lia. }
  intros cur vis fs0 h fs' (names0 & Hlen0 & ->)%walk_counts.
  rewrite total_count_count_all. unfold depth_cap in Hlen0. lia.
Qed.

Lemma walk_stops_at_depth_cap_witness :
  walk depth_cap (Some 0) ∅ ∅ (mk_heap deep_thread overlapping_map []) =
    (Ok {["bar" := 50]}, mk_heap deep_thread overlapping_map []).
Proof.
  destruct (walk_stops_at_depth_cap deep_thread overlapping_map [] 0 (seqZ 0 60) None
              (replicate 60 "bar") ∅) as [Hwalk _].
  - vm_compute. repeat split; discriminate.
  - apply NoDup_seqZ.
  - vm_compute. reflexivity.
  - vm_compute. lia.
  - etrans; [exact Hwalk|]. vm_compute. reflexivity.
Defined.

(** ** The end-to-end scenario *)

Example end_to_end :
  ∃ addr_to_sym,
    build_address_map demo_symbols [] = (Ok addr_to_sym, []) ∧
    find_main_thread {| threads := [demo_thread] |} = Ok demo_thread ∧
    fst (call_analyze_samples demo_thread addr_to_sym []) = Ok ({["foo" := 150]}, 150).
Proof.
  eexists. split; [reflexivity|]. split; [reflexivity|]. vm_compute. reflexivity.
Qed.

(** ** More on [build_address_map] *)

Lemma py_index_None {A : Type} (l : list A) (i : Z) :
  py_index l i = None ↔
  ¬ (- Z.of_nat (length l) ≤ i < Z.of_nat (length l)).
Proof.
  split.
  - intros Hnone Hi. destruct (py_index_is_Some l i Hi) as [x Hx]. congruence.
  - intros Hi. unfold py_index. destruct (0 <=? i) eqn:H0.
    + apply lookup_ge_None. lia.
    + destruct (- Z.of_nat (length l) <=? i) eqn:H1; [|done].
      apply lookup_ge_None. lia.
Qed.

Lemma map_symbol_table_valid st es d :
  Forall (valid_symbol st) es → ∃ m, map_symbol_table st es d = Ok m.
Proof.
  revert d. induction es as [|e es IH]; intros d Hes; [by eexists|].
  apply Forall_cons in Hes as [He Hes]. cbn [map_symbol_table].
  unfold map_sym_entry, index_or_raise.
  destruct (py_index_is_Some st (sym_symbol e) He) as [nm ->]. simpl.
  apply IH, Hes.
Qed.

Lemma map_symbol_table_invalid st es d :
  ¬ Forall (valid_symbol st) es → map_symbol_table st es d = Raise IndexError.
Proof.
  revert d. induction es as [|e es IH]; intros d Hes.
  - exfalso. apply Hes. constructor.
  - cbn [map_symbol_table]. unfold map_sym_entry, index_or_raise.
    destruct (py_index st (sym_symbol e)) as [nm|] eqn:Hnm; simpl; [|done].
    apply IH. intros Hrest. apply Hes. constructor; [|done].
    destruct (decide (valid_symbol st e)) as [|Hbad]; [done|].
    apply py_index_None in Hbad. unfold valid_symbol in *. congruence.
Qed.

(** X1: once the library is found, the address map is built exactly when
    every entry's symbol index is accepted by the string table; one index
    out of range, even on an entry of size 0, raises [IndexError], and
    nothing is printed either way. *)
Theorem build_address_map_symbol_indices symbols out demo_lib :
  find_demo_lib (data symbols) = Some demo_lib →
  (Forall (valid_symbol (string_table symbols)) (symbol_table demo_lib) →
   ∃ m, build_address_map symbols out = (Ok m, out)) ∧
  (¬ Forall (valid_symbol (string_table symbols)) (symbol_table demo_lib) →
   build_address_map symbols out = (Raise IndexError, out)).
Proof.
  intros Hfind. unfold build_address_map, lift. rewrite Hfind. split.
  - intros Hvalid.
    destruct (map_symbol_table_valid _ _ ∅ Hvalid) as [m ->]. by exists m.
  - intros Hbad. by rewrite (map_symbol_table_invalid _ _ ∅ Hbad).
Qed.

Lemma dom_map_range rva size nm (d : gmap Z string) :
  dom (map_range rva size nm d) = list_to_set (seqZ rva size) ∪ dom d.
Proof.
  apply set_eq. intros a.
  rewrite elem_of_union, elem_of_list_to_set, elem_of_seqZ, !elem_of_dom.
  rewrite map_range_lookup.
  destruct (decide (rva ≤ a < rva + size)) as [Hin|Hout].
  - split; [by left | by eexists].
  - split; [by right | intros [?|?]; done].
Qed.

Lemma map_symbol_table_dom st es d m a :
  map_symbol_table st es d = Ok m →
  a ∈ dom m ↔
  a ∈ dom d ∨ ∃ (i : nat) e, es !! i = Some e ∧ covers e a.
Proof.
  revert d. induction es as [|e es IH]; intros d Hm.
  - simpl in Hm. injection Hm as <-. split; [by left|].
    intros [?|(i & e & Hi & _)]; done.
  - apply map_symbol_table_cons in Hm as (nm & _ & Hm).
    rewrite (IH _ Hm), dom_map_range, elem_of_union, elem_of_list_to_set, elem_of_seqZ.
    split.
    + intros [[Hc|Hd]|(i & e' & Hi & Hc)].
      * right. by exists O, e.
      * by left.
      * right. by exists (S i), e'.
    + intros [Hd|(i & e' & Hi & Hc)]; [left; by right|].
      destruct i as [|i]; simpl in Hi.
      * injection Hi as <-. left. by left.
      * right. by exists i, e'.
Qed.

Lemma size_range (rva size : Z) :
  stdpp.base.size (list_to_set (seqZ rva size) : gset Z) = Z.to_nat size.
Proof.
  rewrite size_list_to_set by apply NoDup_seqZ. apply length_seqZ.
Qed.

Lemma map_symbol_table_size st es d m :
  map_symbol_table st es d = Ok m →
  disjoint_entries es →
  (∀ (i : nat) e a, es !! i = Some e → covers e a → a ∉ dom d) →
  stdpp.base.size m = (range_total es + stdpp.base.size d)%nat.
Proof.
  revert d. induction es as [|e es IH]; intros d Hm Hdisj Hfresh.
  - simpl in Hm. by injection Hm as <-.
  - apply map_symbol_table_cons in Hm as (nm & _ & Hm).
    rewrite (IH _ Hm).
    + rewrite <- (size_dom (map_range _ _ _ _)), dom_map_range, size_union.
      * rewrite size_range, size_dom. unfold range_total.
        rewrite fmap_cons. cbn [sum_list].
        change (id ((Z.to_nat ∘ sym_size) e)) with (Z.to_nat (sym_size e)). lia.
      * apply elem_of_disjoint. intros a Ha Hd.
        apply elem_of_list_to_set, elem_of_seqZ in Ha.
        by apply (Hfresh O e a).
    + intros i j e1 e2 a Hne. apply (Hdisj (S i) (S j)). lia.
    + intros i e' a Hi Hc.
      rewrite dom_map_range, not_elem_of_union, elem_of_list_to_set, elem_of_seqZ.
      split.
      * by apply (Hdisj (S i) O e' e a).
      * by apply (Hfresh (S i) e' a).
Qed.

(** X2: the addresses the built map holds are exactly those some entry
    of the library covers; entries of size 0 or less add none. *)
Theorem build_address_map_domain symbols out m out' a :
  build_address_map symbols out = (Ok m, out') →
  is_Some (m !! a) ↔ ∃ (i : nat) e, entries symbols !! i = Some e ∧ covers e a.
Proof.
  intros Hm%build_address_map_entries.
  rewrite <- elem_of_dom, (map_symbol_table_dom _ _ _ _ a Hm), dom_empty.
  split; [intros [?|?]; [set_solver | done] | by right].
Qed.

(** X3: when the entries' ranges do not overlap, the number of address
    mappings built, which the caller prints, is the sum of the entries'
    sizes, an entry of negative size counting for none. *)
Theorem build_address_map_size symbols out m out' :
  build_address_map symbols out = (Ok m, out') →
  disjoint_entries (entries symbols) →
  stdpp.base.size m = range_total (entries symbols).
Proof.
  intros Hm%build_address_map_entries Hdisj.
  rewrite (map_symbol_table_size _ _ _ _ Hm Hdisj).
  - rewrite map_size_empty. lia.
  - intros i e a _ _. rewrite dom_empty. apply not_elem_of_empty.
Qed.


(** ** More on fallback labels *)

Lemma of_pos_head (n : nat) :
  ∀ p rest, (Pos.size_nat p ≤ n)%nat →
    ∃ c s, HexString.Raw.of_pos p rest = String c s ∧ c ≠ "-"%char.
Proof.
  induction n as [|n IH]; intros p rest Hsize; [destruct p; simpl in Hsize; lia|].
  do 4 (try match goal with q : positive |- _ => destruct q end);
    cbn [HexString.Raw.of_pos];
    try (apply IH; simpl in Hsize |- *; lia);
    (eexists _, _; split; [reflexivity | discriminate]).
Qed.

(** X5: a fallback label reads back as the address it was made from,
    negative addresses included, so two different addresses never share a
    fallback label. *)
Theorem fallback_label_round_trip a b :
  label_address (fallback_label a) = a ∧
  (fallback_label a = fallback_label b → a = b).
Proof.
  assert (∀ x, label_address (fallback_label x) = x) as Hback.
  { intros [|p|p].
    - reflexivity.
    - unfold fallback_label, format_x.
      destruct (of_pos_head (Pos.size_nat p) p "" (le_n _)) as (c & s & Hcs & Hc).
      change ("0x" ++ HexString.Raw.of_pos p "")
        with (String "0" (String "x" (HexString.Raw.of_pos p ""))).
      rewrite Hcs. cbn [label_address].
      destruct (Ascii.ascii_dec c "-") as [|_]; [done|].
      rewrite <- Hcs, HexString.Raw.to_N_of_pos. reflexivity.
    - unfold fallback_label, format_x.
      change ("0x" ++ "-" ++ HexString.Raw.of_pos p "")
        with (String "0" (String "x" (String "-" (HexString.Raw.of_pos p "")))).
      cbn [label_address].
      destruct (Ascii.ascii_dec "-" "-") as [_|]; [|done].
      rewrite HexString.Raw.to_N_of_pos. reflexivity. }
  split; [apply Hback|].
  intros Heq. rewrite <- (Hback a), <- (Hback b). by rewrite Heq.
Qed.

(** ** More on [find_main_thread] *)

Lemma first_main_thread_elem ts t :
  first_main_thread ts = Some t → t ∈ ts.
Proof.
  induction ts as [|t0 ts IH]; [done|].
  rewrite first_main_thread_step. destruct (qualifiesb t0).
  - intros [= ->]. left.
  - intros Ht. right. by apply IH.
Qed.

(** X6: [find_main_thread] fails only on a capture without threads, with
    a [ValueError] from [max]; on any other capture it returns one of the
    capture's threads. *)
Theorem find_main_thread_empty_or_member (p : profile) :
  (threads p = [] → find_main_thread p = Raise ValueError) ∧
  (threads p ≠ [] → ∃ t, find_main_thread p = Ok t ∧ t ∈ threads p).
Proof.
  unfold find_main_thread. split.
  - intros ->. reflexivity.
  - intros Hne. destruct (first_main_thread (threads p)) as [t|] eqn:Hfirst.
    + exists t. split; [done | by apply first_main_thread_elem].
    + destruct (threads p) as [|t0 ts]; [done|]. simpl.
      eexists. split; [done|]. apply max_from_spec.
Qed.

Lemma max_from_first {A : Type} (key : A → Z) (best : A) (l : list A) :
  ∃ i : nat, (best :: l) !! i = Some (max_from key best l) ∧
    ∀ (j : nat) x, (j < i)%nat → (best :: l) !! j = Some x →
                   key x < key (max_from key best l).
Proof.
  revert best. induction l as [|y l IH]; intros best.
  - exists O. split; [done|]. intros j x Hj. lia.
  - cbn [max_from]. destruct (key best <? key y) eqn:Hlt.
    + destruct (IH y) as (i & Hi & Hbefore). exists (S i). split; [done|].
      intros [|j] x Hj Hx; simpl in Hx.
      * injection Hx as <-.
        pose proof (proj2 (max_from_spec key y l) y (list_elem_of_here _ _)). lia.
      * apply (Hbefore j); [lia | done].
    + destruct (IH best) as (i & Hi & Hbefore). destruct i as [|i].
      * exists O. split; [done|]. intros j x Hj. lia.
      * exists (S (S i)). split; [done|].
        intros [|[|j]] x Hj Hx; simpl in Hx.
        -- injection Hx as <-. apply (Hbefore O); [lia | done].
        -- injection Hx as <-.
           pose proof (Hbefore O best ltac:(lia) eq_refl). lia.
        -- apply (Hbefore (S j)); [lia | done].
Qed.

(** X7: when no thread meets the combined condition, the thread returned
    is the first one, in capture order, with the maximal sample count:
    every thread before it has strictly fewer samples. *)
Theorem find_main_thread_first_maximum (p : profile) :
  (∀ t, t ∈ threads p → ¬ qualifies t) →
  threads p ≠ [] →
  ∃ (i : nat) t,
    find_main_thread p = Ok t ∧ threads p !! i = Some t ∧
    (∀ (j : nat) t', (j < i)%nat → threads p !! j = Some t' →
                     samples_length t' < samples_length t) ∧
    (∀ t', t' ∈ threads p → samples_length t' ≤ samples_length t).
Proof.
  intros Hno Hne. unfold find_main_thread.
  rewrite (first_main_thread_None _ Hno).
  destruct (threads p) as [|t0 ts]; [done|]. simpl.
  destruct (max_from_first samples_length t0 ts) as (i & Hi & Hbefore).
  exists i, (max_from samples_length t0 ts).
  split; [done|]. split; [done|]. split; [done|]. apply max_from_spec.
Qed.

(** ** More on [analyze_samples]: counts *)

Lemma bump_comm a b fs : bump a (bump b fs) = bump b (bump a fs).
Proof.
  destruct (decide (a = b)) as [->|Hne]; [done|].
  unfold bump. rewrite !lookup_insert_ne by done.
  by apply insert_insert_ne.
Qed.

Lemma count_all_bump a names fs :
  count_all names (bump a fs) = bump a (count_all names fs).
Proof.
  revert fs. induction names as [|b names IH]; intros fs; [done|].
  change (count_all (b :: names) ?x) with (count_all names (bump b x)).
  by rewrite bump_comm, IH.
Qed.

Lemma count_all_comm names1 names2 fs :
  count_all names1 (count_all names2 fs) = count_all names2 (count_all names1 fs).
Proof.
  revert fs. induction names1 as [|a names1 IH]; intros fs; [done|].
  change (count_all (a :: names1) ?x) with (count_all names1 (bump a x)).
  by rewrite <- count_all_bump, IH.
Qed.

Lemma occurrences_cons nm a names :
  occurrences nm (a :: names) =
  (if decide (a = nm) then 1 else 0) + occurrences nm names.
Proof.
  unfold occurrences. rewrite filter_cons.
  destruct (decide (a = nm)); cbn [length]; lia.
Qed.

Lemma occurrences_bounds nm names :
  0 ≤ occurrences nm names ≤ Z.of_nat (length names).
Proof.
  unfold occurrences. pose proof (length_filter (λ x, x = nm) names). lia.
Qed.

Lemma count_all_lookup names fs nm :
  count_all names fs !! nm =
  if decide (occurrences nm names = 0) then fs !! nm
  else Some (default 0 (fs !! nm) + occurrences nm names).
Proof.
  revert fs. induction names as [|a names IH]; intros fs; [done|].
  change (count_all (a :: names) fs) with (count_all names (bump a fs)).
  rewrite IH, occurrences_cons. pose proof (occurrences_bounds nm names) as Hocc.
  unfold bump. destruct (decide (a = nm)) as [->|Hne].
  - rewrite lookup_insert_eq. cbn [default].
    rewrite (decide_False (P := 1 + _ = 0)) by lia.
    destruct (decide (occurrences nm names = 0)) as [->|_]; simpl; f_equal; lia.
  - rewrite lookup_insert_ne by done.
    by destruct (decide (occurrences nm names = 0)) as [H0|H0];
      [rewrite decide_True by lia | rewrite decide_False by lia].
Qed.


(** ** More on [analyze_samples]: the order of the samples *)

(** What a walk does is settled by the tables: it either adds the same
    names to whatever counts it starts from, or raises. *)
Lemma walk_shape n cur vis h :
  (∃ names, ∀ fs, walk n cur vis fs h = (Ok (count_all names fs), h)) ∨
  (∀ fs, walk n cur vis fs h = (Raise IndexError, h)).
Proof.
  revert cur vis. induction n as [|n IH]; intros cur vis.
  { left. by exists []. }
  destruct cur as [c|]; [|left; by exists []].
  destruct (decide (c < 0)) as [Hneg|Hnn].
  { left. exists []. intros fs. by rewrite walk_negative. }
  destruct (decide (c ∈ vis)) as [Hin|Hout].
  { left. exists []. intros fs. by rewrite walk_visited. }
  destruct (frame_name (h_thread h) (h_addr_to_sym h) c) as [nm|] eqn:Hnm;
    [|right; intros fs; rewrite walk_step by (done || lia); by rewrite Hnm].
  destruct (py_index (stackTable_prefix (h_thread h)) c) as [nxt|] eqn:Hnxt;
    [|right; intros fs; rewrite walk_step by (done || lia); by rewrite Hnm, Hnxt].
  destruct (IH nxt ({[c]} ∪ vis)) as [[names Hnames]|Hraise].
  - left. exists (nm :: names). intros fs.
    rewrite walk_step by (done || lia). by rewrite Hnm, Hnxt, Hnames.
  - right. intros fs.
    rewrite walk_step by (done || lia). by rewrite Hnm, Hnxt, Hraise.
Qed.

Lemma walk_sample_shape s h :
  (∃ names, ∀ fs l, walk_samples (s :: l) fs h = walk_samples l (count_all names fs) h) ∨
  (∀ fs l, walk_samples (s :: l) fs h = (Raise IndexError, h)).
Proof.
  destruct s as [i|]; [|left; by exists []].
  destruct (decide (i < 0)) as [Hneg|Hnn].
  { left. exists []. intros fs l. rewrite walk_samples_cons_skip; [done | right; eauto]. }
  destruct (walk_shape depth_cap (Some i) ∅ h) as [[names Hnames]|Hraise].
  - left. exists names. intros fs l.
    rewrite walk_samples_cons_walk by lia. by rewrite Hnames.
  - right. intros fs l.
    rewrite walk_samples_cons_walk by lia. by rewrite Hraise.
Qed.

Lemma walk_samples_perm l l' h fs0 fs :
  l ≡ₚ l' →
  walk_samples l fs0 h = (Ok fs, h) → walk_samples l' fs0 h = (Ok fs, h).
Proof.
  intros Hperm. revert fs0 fs.
  induction Hperm as [|x l l' _ IH|x y l|l l' l'' _ IH1 _ IH2]; intros fs0 fs.
  - done.
  - destruct (walk_sample_shape x h) as [[names Hx]|Hx]; rewrite !Hx; [apply IH | done].
  - destruct (walk_sample_shape x h) as [[nx Hx]|Hx],
             (walk_sample_shape y h) as [[ny Hy]|Hy];
      rewrite ?Hx, ?Hy, ?Hx; try done.
    by rewrite count_all_comm.
  - intros Hl. by apply IH2, IH1.
Qed.

(** The walks read only the three tables and the address map. *)
Lemma walk_same_tables n cur vis fs th th' m out out' :
  stackTable_frame th = stackTable_frame th' →
  stackTable_prefix th = stackTable_prefix th' →
  frameTable_address th = frameTable_address th' →
  (walk n cur vis fs (mk_heap th m out)).1 = (walk n cur vis fs (mk_heap th' m out')).1.
Proof.
  intros Hframe Hprefix Haddr.
  revert cur vis fs. induction n as [|n IH]; intros cur vis fs; [done|].
  destruct cur as [c|]; [|done].
  destruct (decide (c < 0)) as [Hneg|Hnn]; [by rewrite !walk_negative|].
  destruct (decide (c ∈ vis)) as [Hin|Hout]; [by rewrite !walk_visited|].
  rewrite !walk_step by (done || lia). cbn [h_thread h_addr_to_sym mk_heap].
  unfold frame_name. rewrite <- Hframe, <- Hprefix, <- Haddr.
  destruct (py_index (stackTable_frame th) c) as [f|]; cbn [mbind option_bind]; [|done].
  destruct (py_index (frameTable_address th) f) as [a|]; cbn [mbind option_bind]; [|done].
  destruct (py_index (stackTable_prefix th) c) as [nxt|]; [apply IH | done].
Qed.

Lemma walk_samples_same_tables l fs th th' m out out' :
  stackTable_frame th = stackTable_frame th' →
  stackTable_prefix th = stackTable_prefix th' →
  frameTable_address th = frameTable_address th' →
  (walk_samples l fs (mk_heap th m out)).1 = (walk_samples l fs (mk_heap th' m out')).1.
Proof.
  intros Hframe Hprefix Haddr.
  revert fs. induction l as [|s l IH]; intros fs; [done|].
  sample_cases s i; [apply IH | | apply IH].
  pose proof (walk_same_tables depth_cap (Some i) ∅ fs th th' m out out'
                Hframe Hprefix Haddr) as Hwalk.
  pose proof (walk_heap depth_cap (Some i) ∅ fs (mk_heap th m out)) as Hh.
  pose proof (walk_heap depth_cap (Some i) ∅ fs (mk_heap th' m out')) as Hh'.
  destruct (walk depth_cap (Some i) ∅ fs (mk_heap th m out)) as [r h],
           (walk depth_cap (Some i) ∅ fs (mk_heap th' m out')) as [r' h'].
  simpl in Hwalk, Hh, Hh'. subst r' h h'.
  destruct r as [fs'|e]; [apply IH | done].
Qed.

(** X9: the counts do not depend on the order of the samples: the same
    samples in any other order, over the same tables, give the same counts
    and the same total. *)
Theorem analyze_samples_any_order (th : thread) (m : gmap Z string) (out : list string)
    (stack_indices : list (option Z)) func_samples total_samples :
  samples_stack th ≡ₚ stack_indices →
  (call_analyze_samples th m out).1 = Ok (func_samples, total_samples) →
  (call_analyze_samples (with_samples th stack_indices) m out).1 =
    Ok (func_samples, total_samples).
Proof.
  intros Hperm. unfold call_analyze_samples. rewrite !analyze_samples_unfold.
  cbn [h_thread with_samples samples_stack].
  fold (mk_heap th m out). fold (mk_heap (with_samples th stack_indices) m out).
  pose proof (walk_samples_heap (samples_stack th) ∅ (mk_heap th m out)) as Hh.
  destruct (walk_samples (samples_stack th) ∅ (mk_heap th m out)) as [[fs|e] h] eqn:Hwalk;
    [|done].
  simpl in Hh. subst h. intros [= <- <-].
  apply (walk_samples_perm _ _ _ _ _ Hperm) in Hwalk.
  pose proof (walk_samples_same_tables stack_indices ∅ th (with_samples th stack_indices)
                m out out eq_refl eq_refl eq_refl) as Hsame.
  rewrite Hwalk in Hsame. simpl in Hsame.
  destruct (walk_samples stack_indices ∅ (mk_heap (with_samples th stack_indices) m out))
    as [r h']. simpl in Hsame. subst r. simpl.
  by rewrite (Permutation_length Hperm).
Qed.

(** ** More on [analyze_samples]: whole chains, broken tables, skipped samples *)

(** X10: on a chain of at most 50 distinct stack ids that ends at a root
    (or at a negative or an already visited parent), the walk attributes
    every frame of the chain, leaf to root: a function's count grows by
    the number of frames of the chain that resolve to it, so a function
    met at several depths of one sample is counted once per depth. *)
Theorem walk_counts_whole_chain th m out c0 cs last names fs :
  chain th (Some c0) cs last → chain_ends cs last → NoDup cs →
  mapM (frame_name th m) cs = Some names →
  (length cs ≤ 50)%nat →
  walk depth_cap (Some c0) ∅ fs (mk_heap th m out) =
    (Ok (count_all names fs), mk_heap th m out) ∧
  ∀ func_name,
    default 0 (count_all names fs !! func_name) =
    default 0 (fs !! func_name) + occurrences func_name names.
Proof.
  intros Hchain Hends Hnodup Hnames Hlen. split.
  - rewrite (walk_chain_ended th m out cs (Some c0) last names depth_cap fs
               Hchain Hends Hnames Hnodup).
    assert (length names = length cs) as Hlen'.
    { symmetry. eapply Forall2_length. by apply mapM_Some_1. }
    rewrite take_ge; [done | unfold depth_cap; lia].
  - intros nm. rewrite count_all_lookup.
    destruct (decide (occurrences nm names = 0)) as [->|_]; simpl; lia.
Qed.

Lemma broken_id_lookup th m c :
  0 ≤ c → broken_id th c →
  frame_name th m c = None ∨ py_index (stackTable_prefix th) c = None.
Proof.
  intros Hc [Hframe|[(f & Hf & Haddr)|Hprefix]].
  - left. unfold frame_name.
    assert (py_index (stackTable_frame th) c = None) as -> by (apply py_index_None; lia).
    done.
  - left. unfold frame_name. rewrite Hf. cbn [mbind option_bind].
    apply py_index_None in Haddr. by rewrite Haddr.
  - right. apply py_index_None. lia.
Qed.

(** X11: when the walk of a sample reaches, within its 50 iterations, a
    stack id on which a table lookup is out of range, [analyze_samples]
    raises [IndexError]: the counts of the samples already walked are
    lost and the samples after it are never looked at. *)
Theorem analyze_samples_index_error th m out pre c0 post cs names c fs1 :
  samples_stack th = (pre ++ Some c0 :: post)%list →
  walk_samples pre ∅ (mk_heap th m out) = (Ok fs1, mk_heap th m out) →
  chain th (Some c0) cs (Some c) → NoDup cs → c ∉ cs →
  mapM (frame_name th m) cs = Some names →
  (length cs < 50)%nat →
  0 ≤ c → broken_id th c →
  call_analyze_samples th m out = (Raise IndexError, mk_heap th m out).
Proof.
  intros Hsamples Hpre Hchain Hnodup Hfresh Hnames Hlen Hc Hbroken.
  assert (0 ≤ c0) as Hc0.
  { destruct cs as [|c1 cs]; [simpl in Hchain; congruence|].
    by apply (chain_head_nonneg th c0 (c1 :: cs) (Some c)). }
  assert (∀ fs, walk depth_cap (Some c0) ∅ fs (mk_heap th m out) =
                  (Raise IndexError, mk_heap th m out)) as Hwalk.
  { intros fs. unfold depth_cap.
    replace 50%nat with (length cs + S (49 - length cs))%nat by lia.
    rewrite (walk_chain th m out cs (Some c0) (Some c) names _ ∅ fs Hchain Hnames Hnodup);
      [|intros c' _; apply not_elem_of_empty].
    rewrite walk_step; [|done|].
    - cbn [h_thread h_addr_to_sym mk_heap].
      destruct (broken_id_lookup th m c Hc Hbroken) as [->| ->]; [done|].
      by destruct (frame_name th m c).
    - rewrite (right_id_L ∅ (∪)). by rewrite elem_of_list_to_set. }
  unfold call_analyze_samples. fold (mk_heap th m out).
  rewrite analyze_samples_unfold. cbn [h_thread mk_heap]. fold (mk_heap th m out).
  rewrite Hsamples, walk_samples_app, Hpre, walk_samples_cons_walk by done.
  by rewrite Hwalk.
Qed.

Lemma walk_samples_skipped l fs h :
  Forall skipped l → walk_samples l fs h = (Ok fs, h).
Proof.
  induction 1 as [|s l Hs _ IH]; [done|].
  rewrite walk_samples_cons_skip; [done|].
  destruct s as [i|]; [right; by exists i | by left].
Qed.

(** X12: a thread whose samples all have no stack or a negative stack id
    gives empty counts and still the full total, whatever its tables
    hold; in particular a thread without samples gives empty counts and a
    total of 0. *)
Theorem analyze_samples_all_skipped th m out :
  Forall skipped (samples_stack th) →
  call_analyze_samples th m out =
    (Ok (∅, Z.of_nat (length (samples_stack th))), mk_heap th m out).
Proof.
  intros Hskipped. unfold call_analyze_samples. fold (mk_heap th m out).
  rewrite analyze_samples_unfold. cbn [h_thread mk_heap]. fold (mk_heap th m out).
  by rewrite walk_samples_skipped.
Qed.

(** ** The further theorems at concrete inputs *)

Lemma build_address_map_symbol_indices_witness :
  (∃ m, build_address_map overlapping_symbols [] = (Ok m, [])) ∧
  build_address_map bad_index_symbols [] = (Raise IndexError, []).
Proof.
  split.
  - eapply build_address_map_symbol_indices; [reflexivity|].
    repeat constructor; unfold valid_symbol; simpl; lia.
  - eapply build_address_map_symbol_indices; [reflexivity|].
    intros Hall. apply Forall_cons in Hall as [_ Hall].
    apply Forall_cons in Hall as [Hbad _].
    unfold valid_symbol in Hbad. simpl in Hbad. lia.
Defined.

Lemma build_address_map_domain_witness :
  is_Some (overlapping_map !! 114) ∧ ¬ is_Some (overlapping_map !! 115).
Proof.
  split.
  - apply (build_address_map_domain overlapping_symbols [] overlapping_map [] 114);
      [vm_compute; reflexivity|].
    exists 1%nat, {| sym_rva := 105; sym_size := 10; sym_symbol := 1 |}.
    split; [reflexivity | unfold covers; simpl; lia].
  - intros Hsome.
    apply (build_address_map_domain overlapping_symbols [] overlapping_map [] 115) in Hsome;
      [|vm_compute; reflexivity].
    destruct Hsome as (i & e & Hi & Hc).
    destruct i as [|[|i]]; try done; injection Hi as <-; unfold covers in Hc; simpl in Hc; lia.
Defined.

Lemma build_address_map_size_witness :
  stdpp.base.size (map_range 100 10 "foo" ∅) = 10%nat.
Proof.
  apply (build_address_map_size demo_symbols [] (map_range 100 10 "foo" ∅) []).
  - vm_compute. reflexivity.
  - intros [|i] [|j] e e' a Hne Hi Hj; try done; destruct i; done.
Defined.


Lemma fallback_label_round_trip_witness :
  label_address "0x-ff" = -255 ∧ 4096 = 4096.
Proof.
  split.
  - apply (fallback_label_round_trip (-255) 0).
  - apply (fallback_label_round_trip 4096 4096). reflexivity.
Defined.

Lemma find_main_thread_empty_or_member_witness :
  find_main_thread {| threads := [] |} = Raise ValueError ∧
  ∃ t, find_main_thread {| threads := [idle_main; worker 7] |} = Ok t ∧
       t ∈ [idle_main; worker 7].
Proof.
  split.
  - apply (find_main_thread_empty_or_member {| threads := [] |}). reflexivity.
  - apply (find_main_thread_empty_or_member {| threads := [idle_main; worker 7] |}). done.
Defined.

Lemma find_main_thread_first_maximum_witness :
  ∃ (i : nat) t,
    find_main_thread {| threads := [worker 5; idle_main; worker 900; worker 900] |} = Ok t ∧
    [worker 5; idle_main; worker 900; worker 900] !! i = Some t ∧
    (∀ (j : nat) t', (j < i)%nat →
       [worker 5; idle_main; worker 900; worker 900] !! j = Some t' →
       samples_length t' < samples_length t) ∧
    (∀ t', t' ∈ [worker 5; idle_main; worker 900; worker 900] →
           samples_length t' ≤ samples_length t).
Proof.
  apply (find_main_thread_first_maximum
           {| threads := [worker 5; idle_main; worker 900; worker 900] |}); [|done].
  intros t Hin Hq%qualifiesb_spec. cbn [threads] in Hin.
  repeat (apply elem_of_cons in Hin as [->|Hin]; [discriminate Hq|]).
  by apply elem_of_nil in Hin.
Defined.


Lemma analyze_samples_any_order_witness :
  (call_analyze_samples
     (with_samples cyclic_thread [Some 2; Some 2; Some (-1); Some 0; None])
     overlapping_map []).1 = Ok ({["bar" := 3; "0xc8" := 1]}, 5).
Proof.
  apply (analyze_samples_any_order cyclic_thread overlapping_map []).
  - cbn [samples_stack cyclic_thread].
    apply (bool_decide_unpack _). vm_compute. exact I.
  - vm_compute. reflexivity.
Defined.

Lemma walk_counts_whole_chain_witness :
  walk depth_cap (Some 0) ∅ ∅ (mk_heap recursive_thread overlapping_map []) =
    (Ok (count_all ["foo"; "bar"; "foo"] ∅), mk_heap recursive_thread overlapping_map []).
Proof.
  apply (walk_counts_whole_chain recursive_thread overlapping_map [] 0 [0; 1; 2] None
           ["foo"; "bar"; "foo"] ∅).
  - simpl. repeat split; lia.
  - exact I.
  - apply (bool_decide_unpack _). vm_compute. exact I.
  - vm_compute. reflexivity.
  - simpl. lia.
Defined.

Lemma analyze_samples_index_error_witness :
  call_analyze_samples truncated_thread overlapping_map [] =
    (Raise IndexError, mk_heap truncated_thread overlapping_map []).
Proof.
  apply (analyze_samples_index_error truncated_thread overlapping_map []
           [Some 2] 7 [Some 2] [] [] 7 {["foo" := 1]}).
  - reflexivity.
  - vm_compute. reflexivity.
  - reflexivity.
  - constructor.
  - apply not_elem_of_nil.
  - reflexivity.
  - simpl. lia.
  - lia.
  - left. simpl. lia.
Defined.

Lemma analyze_samples_all_skipped_witness :
  call_analyze_samples idle_thread ∅ [] = (Ok (∅, 3), mk_heap idle_thread ∅ []).
Proof.
  apply (analyze_samples_all_skipped idle_thread ∅ []).
  repeat constructor; simpl; lia.
Defined.

(** ** [sorted] *)

Lemma StronglySorted_weaken {A : Type} (R S : A → A → Prop) (l : list A) :
  (∀ a b, R a b → S a b) → StronglySorted R l → StronglySorted S l.
Proof.
  intros HRS. induction 1 as [|x l _ IH Hx]; constructor; [done|].
  eapply Forall_impl; [exact Hx | apply HRS].
Qed.

Section py_sorted_key.
Context {A : Type} (key : A → Z).

Lemma insert_sorted_perm x l :
  insert_sorted (λ a b, key a <=? key b) x l ≡ₚ x :: l.
Proof.
  induction l as [|y l IH]; [done|]. cbn [insert_sorted].
  destruct (key x <=? key y); [done|]. by rewrite IH, Permutation_swap.
Qed.

Lemma py_sorted_perm l : py_sorted (λ a b, key a <=? key b) l ≡ₚ l.
Proof.
  induction l as [|x l IH]; [done|].
  cbn [py_sorted foldr]. fold (py_sorted (λ a b, key a <=? key b) l).
  by rewrite insert_sorted_perm, IH.
Qed.

Lemma insert_sorted_sorted x l :
  StronglySorted (λ a b, key a ≤ key b) l →
  StronglySorted (λ a b, key a ≤ key b) (insert_sorted (λ a b, key a <=? key b) x l).
Proof.
  induction 1 as [|y l Hl IH Hy]; cbn [insert_sorted].
  { repeat constructor. }
  destruct (key x <=? key y) eqn:Hxy.
  - apply StronglySorted_cons. split; [|by constructor].
    constructor; [lia|].
    eapply Forall_impl; [exact Hy|]. intros z Hz. simpl in Hz. lia.
  - apply StronglySorted_cons. split; [|done].
    rewrite insert_sorted_perm. constructor; [lia | done].
Qed.

Lemma py_sorted_sorted l :
  StronglySorted (λ a b, key a ≤ key b) (py_sorted (λ a b, key a <=? key b) l).
Proof.
  induction l as [|x l IH]; [constructor|].
  cbn [py_sorted foldr]. fold (py_sorted (λ a b, key a <=? key b) l).
  by apply insert_sorted_sorted.
Qed.

Lemma insert_sorted_filter (k : Z) x l :
  filter (λ a, key a = k) (insert_sorted (λ a b, key a <=? key b) x l) =
  filter (λ a, key a = k) (x :: l).
Proof.
  induction l as [|y l IH]; [done|]. cbn [insert_sorted].
  destruct (key x <=? key y) eqn:Hxy; [done|].
  rewrite filter_cons, IH, !filter_cons.
  destruct (decide (key y = k)), (decide (key x = k)); try done. lia.
Qed.

Lemma py_sorted_stable (k : Z) l :
  filter (λ a, key a = k) (py_sorted (λ a b, key a <=? key b) l) =
  filter (λ a, key a = k) l.
Proof.
  induction l as [|x l IH]; [done|].
  cbn [py_sorted foldr]. fold (py_sorted (λ a b, key a <=? key b) l).
  by rewrite insert_sorted_filter, !filter_cons, IH.
Qed.

End py_sorted_key.

Lemma sorted_funcs_perm (func_samples : list (string * Z)) :
  sorted_funcs func_samples ≡ₚ func_samples.
Proof. apply (py_sorted_perm (λ x, - x.2)). Qed.

Lemma sorted_funcs_descending (func_samples : list (string * Z)) :
  StronglySorted (λ a b, b.2 ≤ a.2) (sorted_funcs func_samples).
Proof.
  eapply StronglySorted_weaken; [|apply (py_sorted_sorted (λ x, - x.2))].
  intros a b Hab. simpl in Hab. lia.
Qed.

(** X13: [sorted_funcs] holds the items of [func_samples], each once, in
    non-increasing order of count, and functions with the same count stay
    in the order the dictionary has them. *)
Theorem sorted_funcs_stable_descending (func_samples : list (string * Z)) :
  sorted_funcs func_samples ≡ₚ func_samples ∧
  StronglySorted (λ a b, b.2 ≤ a.2) (sorted_funcs func_samples) ∧
  ∀ count, filter (λ row, row.2 = count) (sorted_funcs func_samples) =
           filter (λ row, row.2 = count) func_samples.
Proof.
  split; [apply sorted_funcs_perm|]. split; [apply sorted_funcs_descending|].
  unfold sorted_funcs.
  - intros count.
    pose proof (py_sorted_stable (λ x : string * Z, - x.2) (- count) func_samples) as Hst.
    assert (∀ l : list (string * Z),
              filter (λ row, row.2 = count) l = filter (λ a, - a.2 = - count) l) as Hfil.
    { intros l. apply list_filter_iff. intros x. lia. }
    by rewrite !Hfil.
Qed.

(** ** Running [print_analysis] *)

Lemma Py_bind_run {A B : Type} (c : Py A) (f : A → Py B) out :
  (c ≫= f) out =
  match c out with
  | (Returned a, out') => f a out'
  | (Raised e, out') => (Raised e, out')
  end.
Proof. reflexivity. Qed.

Lemma percentage_zero fl count out :
  percentage fl count 0 out = (Raised ZeroDivisionError, out).
Proof. reflexivity. Qed.

Lemma percentage_nonzero fl count total out :
  total ≠ 0 →
  percentage fl count total out =
  match percent fl count total with
  | Some pct => (Returned pct, out)
  | None => (Raised OverflowError, out)
  end.
Proof.
  intros Htotal. unfold percentage.
  replace (total =? 0) with false by lia. by destruct (percent fl count total).
Qed.

Lemma Py_ret_run {A : Type} (a : A) out : (mret a : Py A) out = (Returned a, out).
Proof. reflexivity. Qed.

Lemma println_bind {A : Type} text (f : unit → Py A) out :
  (println text ≫= f) out = f tt (out ++ text ++ newline).
Proof. reflexivity. Qed.


Lemma percentage_bind {A : Type} fl count total (f : float fl → Py A) out :
  total ≠ 0 →
  (percentage fl count total ≫= f) out =
  match percent fl count total with
  | Some pct => f pct out
  | None => (Raised OverflowError, out)
  end.
Proof.
  intros Htotal. rewrite Py_bind_run, percentage_nonzero by done.
  by destruct (percent fl count total).
Qed.

Lemma str_app_nil_r s : s ++ "" = s.
Proof.
  induction s as [|c s IH]; [done|]. by rewrite append_String, IH.
Qed.

Lemma str_app_assoc s1 s2 s3 : (s1 ++ s2) ++ s3 = s1 ++ (s2 ++ s3).
Proof.
  induction s1 as [|c s1 IH]; [done|]. by rewrite !append_String, IH.
Qed.

Lemma str_concat_cons line lines : str_concat (line :: lines) = line ++ str_concat lines.
Proof. reflexivity. Qed.

(** From [count_shown] rows on, the second loop prints the lines of the
    next keyword rows, up to the fortieth. *)
Lemma hotspot_loop_prints fl total l (n : nat) lines out :
  total ≠ 0 → (n ≤ 40)%nat →
  mapM (hotspot_line fl total)
       (take (40 - n) (filter (λ row, has_keyword row.1 = true) l)) = Some lines →
  hotspot_loop fl total l (Z.of_nat n) out = (Returned tt, out ++ str_concat lines).
Proof.
  intros Htotal. revert n lines out.
  induction l as [|[func_name count] l IH]; intros n lines out Hn Hlines.
  - rewrite filter_nil, take_nil in Hlines. injection Hlines as <-.
    cbn [hotspot_loop str_concat foldr]. by rewrite str_app_nil_r.
  - cbn [hotspot_loop]. destruct (40 <=? Z.of_nat n) eqn:Hfull.
    + replace (40 - n)%nat with 0%nat in Hlines by lia.
      injection Hlines as <-. cbn [str_concat foldr]. by rewrite str_app_nil_r.
    + rewrite filter_cons in Hlines. cbn [fst] in Hlines.
      destruct (has_keyword func_name) eqn:Hkw.
      * rewrite decide_True in Hlines by done.
        replace (40 - n)%nat with (S (40 - S n)) in Hlines by lia.
        cbn [take] in Hlines.
        apply mapM_cons_Some in Hlines as (line & lines' & Hline & Hlines' & ->).
        unfold hotspot_line in Hline. cbn [fst snd] in Hline.
        rewrite Py_bind_run, percentage_nonzero by done.
        destruct (percent fl count total) as [pct|]; [|done].
        cbn [mbind option_bind] in Hline. injection Hline as <-.
        rewrite Py_bind_run. unfold println at 1, print_end at 1.
        replace (Z.of_nat n + 1) with (Z.of_nat (S n)) by lia.
        rewrite (IH (S n) lines'); [|lia|done].
        rewrite str_concat_cons. f_equal.
        by rewrite !str_app_assoc.
      * rewrite decide_False in Hlines by (by intros [=]).
        by apply IH.
Qed.

Lemma hotspot_loop_zero_total fl l (n : nat) out :
  (n < 40)%nat →
  hotspot_loop fl 0 l (Z.of_nat n) out =
  if decide (filter (λ row, has_keyword row.1 = true) l = [])
  then (Returned tt, out) else (Raised ZeroDivisionError, out).
Proof.
  intros Hn. induction l as [|[func_name count] l IH].
  { rewrite filter_nil, decide_True by done. reflexivity. }
  cbn [hotspot_loop]. replace (40 <=? Z.of_nat n) with false by lia.
  rewrite filter_cons. cbn [fst].
  destruct (has_keyword func_name) eqn:Hkw.
  - destruct (decide (true = true)) as [_|]; [|done].
    rewrite decide_False by done. reflexivity.
  - destruct (decide (false = true)) as [|_]; [done|]. apply IH.
Qed.

(** X14: with a total other than 0 and percentages that fit a float, the
    second loop of [print_analysis] prints exactly the lines of the first
    40 keyword rows of [sorted_funcs], in that order, and nothing else;
    with a total of 0 it prints nothing, and raises [ZeroDivisionError] as
    soon as one function name contains a keyword. *)
Theorem hotspot_loop_prints_rows fl (func_samples : list (string * Z)) total lines out :
  (total ≠ 0 →
   mapM (hotspot_line fl total) (hotspot_rows func_samples) = Some lines →
   hotspot_loop fl total (sorted_funcs func_samples) 0 out =
     (Returned tt, out ++ str_concat lines)) ∧
  (hotspot_rows func_samples = [] →
   hotspot_loop fl 0 (sorted_funcs func_samples) 0 out = (Returned tt, out)) ∧
  (hotspot_rows func_samples ≠ [] →
   hotspot_loop fl 0 (sorted_funcs func_samples) 0 out = (Raised ZeroDivisionError, out)).
Proof.
  assert (hotspot_rows func_samples = [] ↔
          filter (λ row, has_keyword row.1 = true) (sorted_funcs func_samples) = [])
    as Hrows.
  { unfold hotspot_rows.
    destruct (filter _ (sorted_funcs func_samples)); [done|]. split; intros [=]. }
  split; [|split].
  - intros Htotal Hlines.
    apply (hotspot_loop_prints fl total _ 0 lines out Htotal); [lia | exact Hlines].
  - intros Hnil%Hrows.
    rewrite (hotspot_loop_zero_total fl _ 0 out) by lia. by rewrite decide_True.
  - intros Hcons.
    rewrite (hotspot_loop_zero_total fl _ 0 out) by lia.
    rewrite decide_False; [done|]. intros Hnil%Hrows. done.
Qed.

(** X15: the hotspot table has at most 40 rows; each is an item of
    [func_samples] whose name contains a keyword; counts never increase
    down the table; and a keyword function is left out only when 40 rows
    with counts at least as large as its own are shown. *)
Theorem hotspot_rows_selection (func_samples : list (string * Z)) :
  (length (hotspot_rows func_samples) ≤ 40)%nat ∧
  (∀ row, row ∈ hotspot_rows func_samples →
          row ∈ func_samples ∧ has_keyword row.1 = true) ∧
  StronglySorted (λ a b, b.2 ≤ a.2) (hotspot_rows func_samples) ∧
  (∀ row, row ∈ func_samples → has_keyword row.1 = true →
          row ∉ hotspot_rows func_samples →
          length (hotspot_rows func_samples) = 40%nat ∧
          ∀ shown, shown ∈ hotspot_rows func_samples → row.2 ≤ shown.2).
Proof.
  pose proof (sorted_funcs_perm func_samples) as Hperm.
  pose proof (sorted_funcs_descending func_samples) as Hsorted.
  unfold hotspot_rows.
  set (matching := filter (λ row, has_keyword row.1 = true) (sorted_funcs func_samples)).
  assert (StronglySorted (λ a b : string * Z, b.2 ≤ a.2) matching) as Hmatching.
  { subst matching. clear Hperm.
    induction Hsorted as [|x l _ IH Hx]; [constructor|].
    rewrite filter_cons. destruct (decide (has_keyword x.1 = true)); [|done].
    constructor; [done|]. rewrite Forall_forall in Hx |- *.
    intros y [_ Hy]%list_elem_of_filter. by apply Hx. }
  assert (∀ row, row ∈ matching ↔ row ∈ func_samples ∧ has_keyword row.1 = true) as Hin.
  { intros row. subst matching. rewrite list_elem_of_filter, Hperm. tauto. }
  rewrite <- (take_drop 40 matching) in Hmatching.
  split; [rewrite length_take; lia|]. split; [|split].
  - intros row Hrow. apply Hin.
    rewrite <- (take_drop 40 matching). apply elem_of_app. by left.
  - by apply StronglySorted_app_1_l in Hmatching.
  - intros row Hrow Hkw Hout.
    assert (row ∈ drop 40 matching) as Hdrop.
    { assert (row ∈ matching) as Hm by (by apply Hin).
      rewrite <- (take_drop 40 matching) in Hm.
      apply elem_of_app in Hm as [?|?]; done. }
    split.
    + rewrite length_take. destruct (decide (40 ≤ length matching)%nat); [lia|].
      rewrite drop_ge in Hdrop by lia. by apply elem_of_nil in Hdrop.
    + intros shown Hshown.
      exact (StronglySorted_app_1_elem_of _ _ _ shown row Hmatching Hshown Hdrop).
Qed.

Ltac py_println := rewrite println_bind.

Lemma key_loop_returns fl func_samples total kfs out :
  (total ≤ 0 ∨ ∀ count, is_Some (percent fl count total)) →
  (key_loop fl func_samples total kfs out).1 = Returned tt.
Proof.
  intros Htotal. revert out.
  induction kfs as [|[func_name label] kfs IH]; intros out; [done|].
  cbn [key_loop]. rewrite Py_bind_run.
  destruct (0 <? total) eqn:Hpos.
  - destruct Htotal as [?|Hfits]; [lia|]. cbv beta iota.
    rewrite percentage_bind by lia.
    destruct (Hfits (dict_get func_samples func_name 0)) as [pct ->].
    rewrite Py_ret_run. cbv beta iota.
    destruct (0 <? dict_get func_samples func_name 0); cbv beta iota;
      [rewrite println_bind | rewrite Py_bind_run, Py_ret_run]; apply IH.
  - rewrite Py_ret_run. cbv beta iota.
    destruct (0 <? dict_get func_samples func_name 0); cbv beta iota;
      [rewrite println_bind | rewrite Py_bind_run, Py_ret_run]; apply IH.
Qed.



(** Running a computation known to return. *)
Lemma Py_bind_returns {A : Type} (c : Py unit) (f : unit → Py A) out :
  (c out).1 = Returned tt → (c ≫= f) out = f tt (c out).2.
Proof.
  intros Hc. rewrite Py_bind_run. destruct (c out) as [r out']. simpl in Hc. by subst r.
Qed.

Lemma print_analysis_raises fl (func_samples : list (string * Z)) out :
  (print_analysis fl func_samples 0 out).1 = Raised ZeroDivisionError.
Proof.
  unfold print_analysis. do 4 py_println.
  rewrite Py_bind_returns by (apply key_loop_returns; left; lia).
  do 3 py_println.
  rewrite Py_bind_run, (hotspot_loop_zero_total fl _ 0) by lia.
  destruct (decide (filter _ (sorted_funcs func_samples) = [])); [|done].
  do 3 py_println.
  by rewrite (Py_bind_run (percentage fl _ 0)), percentage_zero.
Qed.



(** ** Running [main] *)

Lemma run_res_bind {A B : Type} (r : res A) (f : A → Py B) out :
  (run_res r ≫= f) out =
  match r with
  | Ok a => f a out
  | Raise e => (Raised (Core e), out)
  end.
Proof. by destruct r. Qed.

Lemma run_core_bind {A B : Type} (c : M (list string) A) (f : A → Py B) out :
  (run_core c ≫= f) out =
  match c [] with
  | (Ok a, lines) => f a (out ++ str_concat ((λ line, line ++ newline) <$> lines))
  | (Raise e, lines) =>
      (Raised (Core e), out ++ str_concat ((λ line, line ++ newline) <$> lines))
  end.
Proof.
  rewrite Py_bind_run. unfold run_core. by destruct (c []) as [[a|e] lines].
Qed.

Lemma load_bind {A : Type} ext p s (f : profile * symbols → Py A) out loaded out1 :
  load_profile_data ext p s out = (Returned loaded, out1) →
  (load_profile_data ext p s ≫= f) out = f loaded out1.
Proof. intros Hload. by rewrite Py_bind_run, Hload. Qed.

(** One step of a run: the first computation of a sequence is a print or
    a call into the core. *)
Ltac py_step :=
  match goal with
  | |- context [(println ?t ≫= ?f) ?o] => rewrite (println_bind t f o)
  | |- context [(run_res ?r ≫= ?f) ?o] => rewrite (run_res_bind r f o)
  | |- context [(run_core ?c ≫= ?f) ?o] => rewrite (run_core_bind c f o)
  end.


Lemma main_loaded ext argv0 p s out loaded out1 :
  path_exists ext p = true → path_exists ext s = true →
  load_profile_data ext p s (out ++ "Loading profile data..." ++ newline) =
    (Returned loaded, out1) →
  main ext [argv0; p; s] out =
  (addr_to_sym ← run_core (build_address_map loaded.2);
   println ("  Loaded " ++ str_int (Z.of_nat (stdpp.base.size addr_to_sym)) ++
            " address mappings");;
   println "Finding main thread...";;
   main_thread ← run_res (find_main_thread loaded.1);
   println ("  Thread: " ++ name main_thread ++ ", Samples: " ++
            str_int (samples_length main_thread));;
   println (newline ++ "Analyzing samples...");;
   analysis ← run_res (call_analyze_samples main_thread addr_to_sym []).1;
   println newline;;
   print_analysis (ext_float ext) (dict_items ext analysis.1) analysis.2)
    (out1 ++ "Building address map..." ++ newline).
Proof.
  intros Hp Hs Hload. unfold main. cbn [length Nat.eqb negb].
  py_step. change (index_or_raise [argv0; p; s] 1) with (Ok p : res string).
  cbv beta iota. py_step.
  change (index_or_raise [argv0; p; s] 2) with (Ok s : res string).
  cbv beta iota. rewrite Hp, Hs. cbn [negb]. py_step.
  rewrite (load_bind _ _ _ _ _ _ _ Hload). cbv beta zeta. by py_step.
Qed.

(** X18: with both files present and loaded, [main] exits with status 1,
    after the diagnostic, when no library names the target, whatever the
    profile holds; and when the address map is built but the profile has
    no thread, it ends in the [ValueError] of [find_main_thread]. *)
Theorem main_fatal_documents ext argv0 p s out prof symbols out1 :
  path_exists ext p = true → path_exists ext s = true →
  load_profile_data ext p s (out ++ "Loading profile data..." ++ newline) =
    (Returned (prof, symbols), out1) →
  ((∀ lib, lib ∈ data symbols → ¬ names_target lib) →
   main ext [argv0; p; s] out =
     (Raised (Core (SystemExit 1)),
      (out1 ++ "Building address map..." ++ newline) ++ missing_lib_message ++ newline)) ∧
  (∀ m, build_address_map symbols [] = (Ok m, []) → threads prof = [] →
        (main ext [argv0; p; s] out).1 = Raised (Core ValueError)).
Proof.
  intros Hp Hs Hload. rewrite (main_loaded _ _ _ _ _ _ _ Hp Hs Hload). cbn [fst snd].
  split.
  - intros Hnone%find_demo_lib_None.
    assert (build_address_map symbols [] =
              (Raise (SystemExit 1), [missing_lib_message])) as Hbuild.
    { unfold build_address_map. by rewrite Hnone. }
    py_step. rewrite Hbuild. cbv beta iota.
    cbn [fmap list_fmap str_concat foldr]. by rewrite str_app_nil_r.
  - intros m Hm Hthreads. py_step. rewrite Hm. do 3 py_step.
    unfold find_main_thread. by rewrite Hthreads.
Qed.

Lemma main_analysis ext argv0 p s out prof symbols out1 m th :
  path_exists ext p = true → path_exists ext s = true →
  load_profile_data ext p s (out ++ "Loading profile data..." ++ newline) =
    (Returned (prof, symbols), out1) →
  build_address_map symbols [] = (Ok m, []) →
  find_main_thread prof = Ok th →
  ∃ out2,
    main ext [argv0; p; s] out =
    (analysis ← run_res (call_analyze_samples th m []).1;
     println newline;;
     print_analysis (ext_float ext) (dict_items ext analysis.1) analysis.2) out2.
Proof.
  intros Hp Hs Hload Hm Hth. rewrite (main_loaded _ _ _ _ _ _ _ Hp Hs Hload).
  cbn [fst snd]. py_step. rewrite Hm. do 3 py_step. rewrite Hth. do 2 py_step.
  by eexists.
Qed.

Lemma call_analyze_samples_empty th m out :
  samples_stack th = [] →
  (call_analyze_samples th m out).1 = Ok (∅, 0).
Proof.
  intros Hstack. unfold call_analyze_samples. rewrite analyze_samples_unfold.
  cbn [h_thread]. by rewrite Hstack.
Qed.

(** X19: when the thread selected has no samples, [main] goes through
    every stage and then fails in the report with [ZeroDivisionError]:
    the total handed to [print_analysis] is 0. *)
Theorem main_zero_samples ext argv0 p s out prof symbols out1 m th :
  path_exists ext p = true → path_exists ext s = true →
  load_profile_data ext p s (out ++ "Loading profile data..." ++ newline) =
    (Returned (prof, symbols), out1) →
  build_address_map symbols [] = (Ok m, []) →
  find_main_thread prof = Ok th →
  samples_stack th = [] →
  (main ext [argv0; p; s] out).1 = Raised ZeroDivisionError.
Proof.
  intros Hp Hs Hload Hm Hth Hstack.
  destruct (main_analysis ext argv0 p s out prof symbols out1 m th Hp Hs Hload Hm Hth)
    as [out2 ->].
  py_step. rewrite (call_analyze_samples_empty th m [] Hstack).
  cbv beta iota. cbn [fst snd]. py_step. apply print_analysis_raises.
Qed.


(** ** The theorems on [print_analysis] and [main] at concrete inputs *)

Lemma hotspot_loop_prints_rows_witness :
  hotspot_loop fraction_floats 7 (sorted_funcs example_counts) 0 "" =
    (Returned tt,
     "" ++ str_concat
       ["500/7%       5  fire_sim_core::simulation::FireSimulation::update" ++ newline;
        "500/7%       5  rayon::x" ++ newline;
        "300/7%       3  alloc::vec::Vec<T,A>::push" ++ newline]) ∧
  hotspot_loop fraction_floats 0 (sorted_funcs example_counts) 0 "" =
    (Raised ZeroDivisionError, "").
Proof.
  split.
  - apply (proj1 (hotspot_loop_prints_rows fraction_floats example_counts 7 _ ""));
      [done|].
    vm_compute. reflexivity.
  - apply (proj2 (proj2 (hotspot_loop_prints_rows fraction_floats example_counts 0 [] ""))).
    vm_compute. discriminate.
Defined.

Lemma hotspot_rows_selection_witness :
  ("rayon::x", 5) ∈ example_counts ∧ has_keyword "rayon::x" = true.
Proof.
  apply (proj1 (proj2 (hotspot_rows_selection example_counts)) ("rayon::x", 5)).
  vm_compute. apply list_elem_of_further, list_elem_of_here.
Defined.



Lemma main_fatal_documents_witness :
  main example_externals ["analyze_profile.py"; "p.json"; "libc.syms.json"] "" =
    (Raised (Core (SystemExit 1)),
     (("" ++ "Loading profile data..." ++ newline) ++ "Building address map..." ++ newline)
       ++ missing_lib_message ++ newline) ∧
  (main example_externals ["analyze_profile.py"; "empty.json"; "p.syms.json"] "").1 =
    Raised (Core ValueError).
Proof.
  split.
  - apply (proj1 (main_fatal_documents example_externals "analyze_profile.py" "p.json"
                    "libc.syms.json" "" _ _ _ eq_refl eq_refl eq_refl)).
    intros lib Hin%list_elem_of_singleton Hname%str_contains_spec. subst lib.
    discriminate Hname.
  - apply (proj2 (main_fatal_documents example_externals "analyze_profile.py" "empty.json"
                    "p.syms.json" "" _ _ _ eq_refl eq_refl eq_refl)
             (map_range 100 10 "foo" ∅)).
    + vm_compute. reflexivity.
    + reflexivity.
Defined.

Lemma main_zero_samples_witness :
  (main example_externals ["analyze_profile.py"; "idle.json"; "p.syms.json"] "").1 =
    Raised ZeroDivisionError.
Proof.
  apply (main_zero_samples example_externals "analyze_profile.py" "idle.json"
           "p.syms.json" "" {| threads := [with_samples idle_thread []] |} demo_symbols
           ("" ++ "Loading profile data..." ++ newline) (map_range 100 10 "foo" ∅)
           (with_samples idle_thread [])).
  - reflexivity.
  - reflexivity.
  - reflexivity.
  - vm_compute. reflexivity.
  - reflexivity.
  - reflexivity.
Defined.


